(** * Resume analyzer: the analysis pipeline of [backend/nlp.py]

    A shallow embedding of the text normaliser, the skill extractor, the
    match scorer and the suggestion provider chain, with the properties the
    specification states about them.

    Conventions of the embedding.
    - A Python [str] is the list of its code points ([str := list N]);
      literals are written [codes "python"].
    - A Python [set] of strings is a [gset str]; [sorted] is a merge sort
      for the code-point lexicographic order, which is the order Python
      uses to compare strings.
    - A Python [float] is the rational number ([Q]) that the binary64
      number is; every float operation rounds its exact result to the
      nearest float ([fl]), and so does [round(x, 2)] after rounding the
      exact value of [x] to hundredths. The float written 66.67 is
      [fl (6667 # 100)].
    - Values whose type is only known at run time (decoded JSON, what a
      provider returns) are [pyval]s; a Python exception is [Raise] in the
      [res] monad, and [try ... except Exception] is [try_except].
    - The runtime pieces that are no part of the repository are parameters:
      [unicode_lower] (what [str.lower] makes of a character beyond
      ASCII), [json_loads], [json_dumps], [py_repr] ([str()] of a
      non-string) and the replies of the two remote services. *)

From Stdlib Require Import String Ascii QArith Qround Lqa.
From stdpp Require Import base list gmap sets sorting pretty.

Abbreviation str := (list N).

(** Code points of an ASCII literal. *)
Definition codes (s : string) : str := N_of_ascii <$> list_ascii_of_string s.

(** ** Character classes *)

Module Char.

Definition between (lo hi c : N) : bool := ((lo <=? c) && (c <=? hi))%N.

Definition is_upper (c : N) : bool := between 65 90 c.   (* A-Z *)
Definition is_lower (c : N) : bool := between 97 122 c.  (* a-z *)
Definition is_digit (c : N) : bool := between 48 57 c.   (* 0-9 *)
Definition is_ascii (c : N) : bool := (c <? 128)%N.

Definition SPACE : N := 32.
Definition PLUS : N := 43.
Definition HASH : N := 35.
Definition DOT : N := 46.
Definition DASH : N := 45.
Definition STAR : N := 42.
Definition TAB : N := 9.
Definition BULLET : N := 8226. (* U+2022 *)

(** [\s] of a [str] pattern and [str.strip()] / [str.isspace()]: the
    Unicode white space of CPython ([Py_UNICODE_ISSPACE]). *)
Definition is_space (c : N) : bool :=
  between 9 13 c || between 28 32 c || (c =? 133)%N || (c =? 160)%N
  || (c =? 5760)%N || between 8192 8202 c || (c =? 8232)%N || (c =? 8233)%N
  || (c =? 8239)%N || (c =? 8287)%N || (c =? 12288)%N.

(** Line boundaries of [str.splitlines()]; CR LF counts as one. *)
Definition is_linebreak (c : N) : bool :=
  between 10 13 c || between 28 30 c || (c =? 133)%N
  || (c =? 8232)%N || (c =? 8233)%N.

(** The class [[a-z0-9\s+#\.\-]] whose complement line 52 blanks out. *)
Definition kept (c : N) : bool :=
  is_lower c || is_digit c || is_space c
  || (c =? PLUS)%N || (c =? HASH)%N || (c =? DOT)%N || (c =? DASH)%N.

(** The class [[A-Za-z\+\#]] of line 63. *)
Definition token_char (c : N) : bool :=
  is_upper c || is_lower c || (c =? PLUS)%N || (c =? HASH)%N.

(** The class [[\-\*•]] of line 162. *)
Definition is_bullet (c : N) : bool :=
  (c =? DASH)%N || (c =? STAR)%N || (c =? BULLET)%N.

(** The characters the specification allows in a normalised text:
    a-z, 0-9, the space, [+], [#], [.] and [-]. *)
Definition allowed (c : N) : bool :=
  is_lower c || is_digit c || (c =? SPACE)%N
  || (c =? PLUS)%N || (c =? HASH)%N || (c =? DOT)%N || (c =? DASH)%N.

Definition lower_ascii (c : N) : N := if is_upper c then (c + 32)%N else c.

End Char.

(** ** String primitives of the Python runtime *)

Section Strings.

Fixpoint drop_while (p : N → bool) (s : str) : str :=
  match s with
  | [] => []
  | c :: r => if p c then drop_while p r else s
  end.

Fixpoint take_while (p : N → bool) (s : str) : str :=
  match s with
  | [] => []
  | c :: r => if p c then c :: take_while p r else []
  end.

(** [s.strip(chars)] for the characters [p]. *)
Definition strip_chars (p : N → bool) (s : str) : str :=
  reverse (drop_while p (reverse (drop_while p s))).

(** [s.strip()] *)
Definition strip : str → str := strip_chars Char.is_space.

Fixpoint is_prefix (p s : str) : bool :=
  match p, s with
  | [], _ => true
  | _ :: _, [] => false
  | a :: p', b :: s' => (a =? b)%N && is_prefix p' s'
  end.

(** [p in s] on strings. *)
Fixpoint contains (s p : str) : bool :=
  is_prefix p s || match s with [] => false | _ :: r => contains r p end.

(** [sep.join(parts)] *)
Fixpoint join (sep : str) (parts : list str) : str :=
  match parts with
  | [] => []
  | [p] => p
  | p :: rest => p ++ sep ++ join sep rest
  end.

(** Code-point lexicographic comparison, [a <= b] on Python strings. *)
Fixpoint str_leb (a b : str) : bool :=
  match a, b with
  | [], _ => true
  | _ :: _, [] => false
  | x :: a', y :: b' => (x <? y)%N || ((x =? y)%N && str_leb a' b')
  end.

Definition str_le (a b : str) : Prop := str_leb a b = true.
Definition str_lt (a b : str) : Prop := str_le a b ∧ a ≠ b.

(** [s.splitlines()]: [cur] is the line being read, in reverse. *)
Fixpoint splitlines_go (cur : str) (s : str) : list str :=
  match s with
  | [] => match cur with [] => [] | _ => [reverse cur] end
  | c :: r =>
      if Char.is_linebreak c then
        reverse cur ::
          match c, r with
          | 13%N, 10%N :: r' => splitlines_go [] r'
          | _, _ => splitlines_go [] r
          end
      else splitlines_go (c :: cur) r
  end.

Definition splitlines : str → list str := splitlines_go [].

(** [str.lower()] maps the characters of the string one by one. An ASCII
    character becomes its [Char.lower_ascii], whatever surrounds it. What
    a character beyond ASCII becomes is read from the Unicode tables of
    the run time: it may be several characters, and for the capital sigma
    it depends on the characters before and after it. So the table is
    given the characters before, the character and the characters
    after. *)
Variable unicode_lower : str → N → str → str.

Fixpoint lower_from (before s : str) : str :=
  match s with
  | [] => []
  | c :: after =>
      (if Char.is_ascii c then [Char.lower_ascii c]
       else unicode_lower before c after)
      ++ lower_from (before ++ [c]) after
  end.

Definition lower (s : str) : str := lower_from [] s.

(** ** [normalize_text] (nlp.py, lines 50-54) *)

(** [re.sub(r"[^a-z0-9\s+#\.\-]", " ", s)] *)
Definition blank_disallowed (s : str) : str :=
  (λ c, if Char.kept c then c else Char.SPACE) <$> s.

(** [re.sub(r"\s+", " ", s)]: [in_run] tells that the previous character
    was white space, whose run already produced its single space. *)
Fixpoint collapse_ws_go (in_run : bool) (s : str) : str :=
  match s with
  | [] => []
  | c :: r =>
      if Char.is_space c
      then (if in_run then collapse_ws_go true r
            else Char.SPACE :: collapse_ws_go true r)
      else c :: collapse_ws_go false r
  end.

Definition collapse_ws : str → str := collapse_ws_go false.

Definition normalize_text (s : str) : str :=
  let s := lower s in
  let s := blank_disallowed s in
  let s := collapse_ws s in
  strip s.

End Strings.

(** ** Sets of strings and [sorted] *)

#[global] Instance str_le_dec : RelDecision str_le.
Proof. intros a b. unfold str_le. apply _. Defined.

(** [sorted(found)] for a set of strings. *)
Definition sorted (found : gset str) : list str :=
  merge_sort str_le (elements found).

(** ** The skill taxonomy (nlp.py, lines 16-22) *)

Definition COMMON_SKILLS : list str := codes <$>
  [ "java"; "python"; "c++"; "c#"; "javascript"; "react"; "angular"; "spring";
    "spring boot"; "hibernate";
    "sql"; "postgresql"; "mysql"; "nosql"; "mongodb"; "docker"; "kubernetes";
    "aws"; "azure"; "gcp";
    "rest api"; "graphql"; "microservices"; "git"; "linux"; "data structures";
    "algorithms";
    "machine learning"; "deep learning"; "nlp"; "pytorch"; "tensorflow";
    "scikit-learn"; "pandas";
    "numpy"; "spark"; "hadoop"; "jenkins"; "ci/cd"; "prometheus"; "grafana";
    "ansible"; "terraform" ]%string.

(** ** [extract_skills] (nlp.py, lines 56-67) *)

(** [re.findall(r"[A-Za-z\+\#]{2,}", text)]: at each position the greedy
    match takes the longest run of token characters; when it has at least
    two characters it is a match and the scan resumes after it, otherwise
    the scan moves on by one character. Every step consumes a character,
    so [length text] steps are enough. *)
Fixpoint findall_tokens_fuel (fuel : nat) (s : str) : list str :=
  match fuel with
  | O => []
  | S fuel =>
      match s with
      | [] => []
      | _ :: r =>
          let m := take_while Char.token_char s in
          if (2 <=? length m)%nat
          then m :: findall_tokens_fuel fuel (drop (length m) s)
          else findall_tokens_fuel fuel r
      end
  end.

Definition findall_tokens (text : str) : list str :=
  findall_tokens_fuel (length text) text.

Section Extract.

Variable unicode_lower : str → N → str → str.

Definition add_if_substring (t : str) (found : gset str) (skill : str) : gset str :=
  if contains t skill then {[skill]} ∪ found else found.

Definition add_if_listed (skills_list : list str) (found : gset str) (tok : str)
  : gset str :=
  if bool_decide (lower unicode_lower tok ∈ skills_list)
  then {[lower unicode_lower tok]} ∪ found else found.

Definition extract_skills (text : str) (skills_list : list str) : list str :=
  let t := normalize_text unicode_lower text in
  let found : gset str := ∅ in
  let found := foldl (add_if_substring t) found skills_list in
  let tokens := findall_tokens text in
  let found := foldl (add_if_listed skills_list) found tokens in
  sorted found.

End Extract.

(** ** Floats *)

(** Nearest integer, ties to even. *)
Definition round_half_even (x : Q) : Z :=
  let f := Qfloor x in
  match (x - inject_Z f ?= 1 # 2)%Q with
  | Lt => f
  | Gt => (f + 1)%Z
  | Eq => if Z.even f then f else (f + 1)%Z
  end.

(** A Python [float] is a binary64 number: a multiple of [2^-1074] with at
    most 53 significant bits. [DENORM] is the number of such steps in 1. *)
Definition DENORM : Z := 2 ^ 1074.

(** For a magnitude [t], counted in steps of [2^-1074]: the distance between
    the floats around it. With [2^l <= t < 2^(l+1)] it is [2^(l-52)], and
    one step for the subnormal numbers, where [l < 52]. *)
Definition spacing (t : Q) : Z := 2 ^ Z.max (Z.log2 (Qfloor t) - 52) 0.

(** The multiple of the spacing nearest to [t], ties to the even multiple. *)
Definition to_spacing (t : Q) : Z :=
  (round_half_even (t / inject_Z (spacing t)) * spacing t)%Z.

Definition fl_pos (x : Q) : Q :=
  Qred (inject_Z (to_spacing (x * inject_Z DENORM)) / inject_Z DENORM).

(** The float nearest to the real number [x], ties to even: the rounding of
    every float operation of IEEE 754. Overflow is left out: no number
    rounded here is above 100. *)
Definition fl (x : Q) : Q :=
  if Qle_bool 0 x then fl_pos x else (- fl_pos (- x))%Q.

(** [a / b] on two [int]s and [a * b] on two floats: the exact result,
    rounded. *)
Definition true_divide (a b : Z) : Q := fl (inject_Z a / inject_Z b).
Definition float_mul (a b : Q) : Q := fl (a * b).

(** [round(x, 2)] on a float: the exact value of [x] is rounded to the
    nearest hundredth, ties to even, and the result is the float nearest to
    that decimal number. *)
Definition round2 (x : Q) : Q := fl (round_half_even (x * 100) # 100).

(** ** [compute_match] (nlp.py, lines 69-74) *)

Definition compute_match (skills_resume skills_job : list str) : Q :=
  match skills_job with
  | [] => 0
  | _ =>
      let matched : gset str := list_to_set skills_resume ∩ list_to_set skills_job in
      let score :=
        true_divide (Z.of_nat (size matched))
                    (Z.of_nat (max 1 (size (list_to_set skills_job : gset str)))) in
      round2 (float_mul score 100)
  end.

(** ** [heuristic_suggestions] (nlp.py, lines 76-86) *)

Definition MISSING_PREFIX : str := codes "Skills to add or highlight: ".
Definition QUANTIFY : str :=
  codes "Quantify achievements (e.g., reduced latency by 30%, processed X records).".
Definition KEY_PROJECTS : str :=
  codes "Add a short 'Key Projects' section with tech stack and outcomes.".
Definition MODEL_METRICS : str :=
  codes "Include datasets, model performance metrics (accuracy/F1), and deployment details.".

Definition heuristic_suggestions (skills_resume skills_job : list str) : list str :=
  let suggestions : list str := [] in
  let missing : gset str := list_to_set skills_job ∖ list_to_set skills_resume in
  let suggestions :=
    if bool_decide (missing ≠ ∅)
    then suggestions ++ [MISSING_PREFIX ++ join (codes ", ") (sorted missing)]
    else suggestions in
  let suggestions := suggestions ++ [QUANTIFY] in
  let suggestions := suggestions ++ [KEY_PROJECTS] in
  if bool_decide (codes "machine learning" ∈ skills_job)
     || bool_decide (codes "nlp" ∈ skills_job)
  then suggestions ++ [MODEL_METRICS]
  else suggestions.

(** ** Run-time values, exceptions and the event trace *)

(** A Python value as [json] decodes it, and what a provider may return. *)
#[warnings="-register-all"]
Inductive pyval : Type :=
| PNone
| PBool (b : bool)
| PInt (z : Z)
| PFloat (q : Q)
| PStr (s : str)
| PList (l : list pyval)
| PDict (kv : list (str * pyval)).

(** The outcome of an expression that may raise. *)
Inductive res (A : Type) : Type :=
| Ok (a : A)
| Raise.
Arguments Ok {A} a.
Arguments Raise {A}.

#[global] Instance res_ret : MRet res := λ A a, Ok a.
#[global] Instance res_bind : MBind res :=
  λ A B f m, match m with Ok a => f a | Raise => Raise end.

(** [try: body; except Exception: return handler] *)
Definition try_except {A} (body : res A) (handler : A) : A :=
  match body with Ok a => a | Raise => handler end.

(** What the orchestrator does that an observer can see: which provider
    function it calls, and which request leaves the process. *)
Inductive event : Type :=
| CallGemini
| HttpPost (url prompt : str)
| CallOpenAI
| ChatCreate (prompt : str)
| CallHeuristic.

Record io (A : Type) : Type := IO { value : A; trace : list event }.
Arguments IO {A} value trace.
Arguments value {A} _.
Arguments trace {A} _.

#[global] Instance io_ret : MRet io := λ A a, IO a [].
#[global] Instance io_bind : MBind io :=
  λ A B f m, let r := f (value m) in IO (value r) (trace m ++ trace r).

Definition tell (e : event) : io () := IO () [e].

Module Py.

(** [bool(v)] *)
Definition truthy (v : pyval) : bool :=
  match v with
  | PNone => false
  | PBool b => b
  | PInt z => negb (z =? 0)%Z
  | PFloat q => negb (Qeq_bool q 0)
  | PStr s => negb (bool_decide (s = []))
  | PList l => negb (bool_decide (l = []))
  | PDict kv => negb (bool_decide (kv = []))
  end.

(** [a or b] *)
Definition or (a b : pyval) : pyval := if truthy a then a else b.

(** [k in d] and [d[k]] on the items of a dict. *)
Fixpoint lookup (kv : list (str * pyval)) (k : str) : option pyval :=
  match kv with
  | [] => None
  | (k', v) :: rest => if bool_decide (k' = k) then Some v else lookup rest k
  end.

(** [d.get(k, dflt)] on the items of a dict. *)
Definition dict_get (kv : list (str * pyval)) (k : str) (dflt : pyval) : pyval :=
  default dflt (lookup kv k).

(** [v.get(k, dflt)]: only a dict has the method, anything else raises
    AttributeError. *)
Definition get (v : pyval) (k : str) (dflt : pyval) : res pyval :=
  match v with
  | PDict kv => Ok (dict_get kv k dflt)
  | _ => Raise
  end.

(** [sep.join(pieces)]: TypeError unless every piece is a string. *)
Fixpoint strings (pieces : list pyval) : res (list str) :=
  match pieces with
  | [] => Ok []
  | PStr s :: rest => ss ← strings rest; Ok (s :: ss)
  | _ :: _ => Raise
  end.

Definition str_join (sep : str) (pieces : list pyval) : res str :=
  ss ← strings pieces; Ok (join sep ss).

(** An environment variable read by [os.getenv]: absent or a string;
    the empty string is falsy like [None]. *)
Definition env_truthy (v : option str) : bool :=
  match v with Some (_ :: _) => true | _ => false end.

Definition env_or (a b : option str) : option str :=
  if env_truthy a then a else b.

End Py.

(** ** The suggestion providers (nlp.py, lines 88-193) *)

Definition NL : str := [10%N].
Definition DQ : str := [34%N].
Definition FENCE : str := codes "```".

(** The process environment and the two remote services. [requests_post]
    stands for lines 119-121: the reply decoded by [resp.json()], or the
    exception of a network failure, a timeout, a non-2xx status or a body
    that is no JSON. [chat_completion] stands for lines 179-185: the value of
    [resp.choices[0].message.get("content", "")], or the exception that
    prevented it. *)
Record World : Type := {
  GOOGLE_API_KEY : option str;
  GEMINI_API_KEY : option str;
  GEMINI_MODEL : option str;
  OPENAI_API_KEY : option str;
  openai_imported : bool;
  requests_post : str → str → res pyval;
  chat_completion : str → res pyval
}.

Definition gemini_configured (W : World) : bool :=
  Py.env_truthy (Py.env_or (GOOGLE_API_KEY W) (GEMINI_API_KEY W)).

Definition openai_configured (W : World) : bool :=
  openai_imported W && Py.env_truthy (OPENAI_API_KEY W).

(** [re.sub(r"^[\-\*•]+\s*", "", line)] *)
Definition strip_bullets (line : str) : str :=
  match line with
  | c :: _ =>
      if Char.is_bullet c
      then drop_while Char.is_space (drop_while Char.is_bullet line)
      else line
  | [] => []
  end.

(** Lines 156-163: the loop that collects the cleaned lines. *)
Definition gemini_clean_step (lines : list str) (line : str) : list str :=
  let line := strip line in
  match line with
  | [] => lines
  | _ => lines ++ [strip_bullets line]
  end.

Definition gemini_clean_lines (text_out : str) : list str :=
  foldl gemini_clean_step [] (splitlines text_out).

(** Line 190: [[l.strip("-* \t") for l in text.splitlines() if l.strip()]] *)
Definition openai_strip_chars (c : N) : bool :=
  (c =? Char.DASH)%N || (c =? Char.STAR)%N || (c =? Char.SPACE)%N || (c =? Char.TAB)%N.

Definition openai_clean_lines (text : str) : list str :=
  strip_chars openai_strip_chars <$>
    filter (λ l, strip l ≠ []) (splitlines text).

Section Providers.

Variable unicode_lower : str → N → str → str.
(** [json.loads] on a string: the decoded value, or [None] when it raises. *)
Variable json_loads : str → option pyval.
Variable json_dumps : pyval → str.
(** [str(v)] for a [v] that is no string. *)
Variable py_repr : pyval → str.
Variable W : World.

Definition py_str (v : pyval) : str :=
  match v with PStr s => s | _ => py_repr v end.

(** [json.loads(v)]: TypeError unless [v] is a string. *)
Definition loads (v : pyval) : res pyval :=
  match v with
  | PStr s => match json_loads s with Some p => Ok p | None => Raise end
  | _ => Raise
  end.

Definition gemini_url (model api_key : str) : str :=
  codes "https://generativelanguage.googleapis.com/v1beta2/models/"
  ++ model ++ codes ":generateText?key=" ++ api_key.

Definition gemini_prompt (resume job : str) : str :=
  codes "You are an expert career coach." ++ NL
  ++ codes "Given the resume text delimited by triple backticks and the job description delimited by triple backticks, "
  ++ codes "provide 5 concise suggestions to improve the resume for this job. Use short bullet points." ++ NL ++ NL
  ++ codes "Resume:" ++ NL ++ FENCE ++ NL ++ take 4000 resume ++ NL ++ FENCE ++ NL ++ NL
  ++ codes "Job:" ++ NL ++ FENCE ++ NL ++ take 4000 job ++ NL ++ FENCE ++ NL ++ NL
  ++ codes "Respond with a JSON array of strings only (for example: ["
  ++ DQ ++ codes "point1" ++ DQ ++ codes ", " ++ DQ ++ codes "point2" ++ DQ
  ++ codes ", ...]).".

(** Lines 137-141: one piece per item of [data["output"]]. *)
Definition gemini_piece (item : pyval) : pyval :=
  match item with
  | PDict kv => Py.dict_get kv (codes "content") (PStr [])
  | _ => PStr (py_str item)
  end.

(** Lines 124-147: where the reply may hold the generated text. *)
Definition gemini_text_out (data : pyval) : res pyval :=
  match data with
  | PDict d =>
      let text_out := PNone in
      text_out ←
        match Py.lookup d (codes "candidates") with
        | Some (PList (c0 :: _)) =>
            output ← Py.get c0 (codes "output") PNone;
            if Py.truthy output then Ok output
            else Py.get c0 (codes "content") PNone
        | _ => Ok text_out
        end;
      text_out ←
        (if negb (Py.truthy text_out) then
           match Py.lookup d (codes "output") with
           | Some (PDict o) =>
               Ok (Py.or (Py.dict_get o (codes "text") PNone)
                         (Py.dict_get o (codes "content") PNone))
           | Some (PList (item :: items)) =>
               joined ← Py.str_join NL (gemini_piece <$> item :: items);
               Ok (PStr joined)
           | _ => Ok text_out
           end
         else Ok text_out);
      if negb (Py.truthy text_out) then
        Ok (Py.or (Py.dict_get d (codes "text") PNone)
              (Py.or (Py.dict_get d (codes "content") PNone)
                     (PStr (json_dumps data))))
      else Ok text_out
  | _ => Ok (PStr (py_str data))
  end.

(** Lines 149-165. The [return] of line 153 is taken only for a list; any
    other decoded value leaves the [try] without a [return], and the
    function ends with Python's implicit [None]. The handler of line 154
    runs when [json.loads] raised; its own exception ([text_out] without
    [splitlines]) reaches the outer handler. *)
Definition gemini_result (text_out : pyval) : res pyval :=
  match loads text_out with
  | Ok parsed =>
      match parsed with
      | PList xs => Ok (PList ((λ x, PStr (py_str x)) <$> xs))
      | _ => Ok PNone
      end
  | Raise =>
      match text_out with
      | PStr s => Ok (PList (PStr <$> take 7 (gemini_clean_lines s)))
      | _ => Raise
      end
  end.

Definition call_gemini_suggestions (resume job : str) : io pyval :=
  tell CallGemini;;
  let api_key := Py.env_or (GOOGLE_API_KEY W) (GEMINI_API_KEY W) in
  match api_key with
  | Some (k :: ey) =>
      let model := default (codes "text-bison-001") (GEMINI_MODEL W) in
      let url := gemini_url model (k :: ey) in
      let prompt := gemini_prompt resume job in
      tell (HttpPost url prompt);;
      mret (try_except
              (data ← requests_post W url prompt;
               text_out ← gemini_text_out data;
               gemini_result text_out)
              (PList []))
  | _ => mret (PList [])
  end.

Definition openai_prompt (resume job : str) : str :=
  codes "You are an expert career coach." ++ NL
  ++ codes "Given the resume text delimited by triple backticks and the job description delimited by triple backticks, provide 5 concise suggestions to improve the resume for this job. Use bullet points."
  ++ NL ++ NL
  ++ codes "Resume:" ++ NL ++ FENCE ++ NL ++ take 4000 resume ++ NL ++ FENCE ++ NL ++ NL
  ++ codes "Job:" ++ NL ++ FENCE ++ NL ++ take 4000 job ++ NL ++ FENCE ++ NL ++ NL
  ++ codes "Respond with a JSON array of strings only.".

(** Lines 185-191. *)
Definition openai_result (text : pyval) : res pyval :=
  data ← loads text;
  match data, text with
  | PList xs, _ => Ok data
  | _, PStr s => Ok (PList (PStr <$> take 7 (openai_clean_lines s)))
  | _, _ => Raise
  end.

Definition call_openai_suggestions (resume job : str) : io pyval :=
  tell CallOpenAI;;
  if negb (openai_imported W) || negb (Py.env_truthy (OPENAI_API_KEY W))
  then mret (PList [])
  else
    let prompt := openai_prompt resume job in
    tell (ChatCreate prompt);;
    mret (try_except (text ← chat_completion W prompt; openai_result text)
                     (PList [])).

(** ** [analyze_resume_and_job] (nlp.py, lines 195-218) *)

Record AnalysisResult : Type := {
  skills_resume : list str;
  skills_job : list str;
  match_score : Q;
  suggestions : pyval;
  short_summary : str
}.

Definition call_heuristic (skills_resume skills_job : list str) : io pyval :=
  tell CallHeuristic;;
  mret (PList (PStr <$> heuristic_suggestions skills_resume skills_job)).

Definition analyze_resume_and_job (resume_text job_description : option str)
  : io AnalysisResult :=
  let resume_text := default [] resume_text in
  let job_description := default [] job_description in
  let skills_resume := extract_skills unicode_lower resume_text COMMON_SKILLS in
  let skills_job := extract_skills unicode_lower job_description COMMON_SKILLS in
  let match_score := compute_match skills_resume skills_job in
  let suggestions := PList [] in
  suggestions ←
    (if Py.env_truthy (Py.env_or (GOOGLE_API_KEY W) (GEMINI_API_KEY W))
     then call_gemini_suggestions resume_text job_description
     else mret suggestions);
  suggestions ←
    (if negb (Py.truthy suggestions) && openai_imported W
        && Py.env_truthy (OPENAI_API_KEY W)
     then call_openai_suggestions resume_text job_description
     else mret suggestions);
  suggestions ←
    (if negb (Py.truthy suggestions)
     then call_heuristic skills_resume skills_job
     else mret suggestions);
  mret {| skills_resume := skills_resume;
          skills_job := skills_job;
          match_score := match_score;
          suggestions := suggestions;
          short_summary :=
            codes "Resume contains " ++ codes (pretty (length skills_resume))
            ++ codes " recognized skills. Job requires "
            ++ codes (pretty (length skills_job))
            ++ codes " recognized skills." |}.

End Providers.

(** * Specification-side notions *)

(** No two consecutive spaces. *)
Definition no_double_space (s : str) : Prop :=
  ∀ i, s !! i = Some Char.SPACE → s !! S i ≠ Some Char.SPACE.

(** A text is normal when it has the shape [normalize_text] produces. *)
Definition normal (t : str) : Prop :=
  Forall (λ c, Char.allowed c = true) t ∧
  no_double_space t ∧
  (∀ c, head t = Some c → Char.is_space c = false) ∧
  (∀ c, last t = Some c → Char.is_space c = false).

(** [p] occurs in [s] as a substring. *)
Definition occurs_in (p s : str) : Prop := ∃ pre post, s = pre ++ p ++ post.

(** A word character: one that the normaliser keeps and that is no white
    space, that is a-z, 0-9, [+], [#], [.] or [-]. *)
Definition word_char (c : N) : bool := Char.kept c && negb (Char.is_space c).

(** The words of a text: its maximal runs of word characters, in order. *)
Fixpoint words (s : str) : list str :=
  match s with
  | [] => []
  | c :: r =>
      if word_char c then
        match r with
        | d :: _ =>
            if word_char d then
              match words r with
              | w :: ws => (c :: w) :: ws
              | [] => [[c]]
              end
            else [c] :: words r
        | [] => [[c]]
        end
      else words r
  end.

(** [s.rstrip()], the second half of [s.strip()]. *)
Definition rstrip (s : str) : str :=
  reverse (drop_while Char.is_space (reverse s)).

(** [tok] is a maximal run of token characters of [text], at least two
    characters long: it cannot be extended to the left or to the right. *)
Definition token_run (text tok : str) : Prop :=
  ∃ pre post,
    text = pre ++ tok ++ post ∧
    Forall (λ c, Char.token_char c = true) tok ∧
    (2 ≤ length tok)%nat ∧
    (∀ c, last pre = Some c → Char.token_char c = false) ∧
    (∀ c, head post = Some c → Char.token_char c = false).

(** The score the specification defines: [0.0] for an empty job skill list,
    else [round(|R ∩ J| / |J| * 100, 2)], the share of the distinct job
    skills that the resume has, as a percentage rounded to two decimals. *)
Definition score_spec (R J : list str) : Q :=
  if bool_decide (J = []) then 0%Q
  else
    let matched := Z.of_nat (size (list_to_set R ∩ list_to_set J : gset str)) in
    let required := Z.of_nat (size (list_to_set J : gset str)) in
    round2 (float_mul (true_divide matched required) 100).

(** The suggestions of the heuristic fallback as the specification lists
    them: one line with the missing skills when there are any, the two
    generic suggestions, and the suggestion about model metrics when the
    job asks for machine learning or NLP. *)
Definition heuristic_spec (R J : list str) : list str :=
  let missing := sorted (list_to_set J ∖ list_to_set R) in
  match missing with
  | [] => []
  | _ => [MISSING_PREFIX ++ join (codes ", ") missing]
  end
  ++ [QUANTIFY; KEY_PROJECTS]
  ++ (if bool_decide (codes "machine learning" ∈ J ∨ codes "nlp" ∈ J)
      then [MODEL_METRICS] else []).

(** The skills of the taxonomy that belong to machine learning or to NLP:
    the entries of its line 20, the data-frame library apart. *)
Definition ML_NLP_SKILLS : list str := codes <$>
  [ "machine learning"; "deep learning"; "nlp"; "pytorch"; "tensorflow";
    "scikit-learn" ]%string.

(** The cleaned lines of the line-split path, as a comprehension. *)
Definition cleaned_lines (text : str) : list str :=
  strip_bullets <$> filter (λ l, l ≠ []) (strip <$> splitlines text).

(** What the two passes of the extractor detect, in the specification's
    words: the skills of the taxonomy that occur in the normalised text,
    and the lower-cased tokens of the original text that are skills of the
    taxonomy. *)
Definition substring_pass (unicode_lower : str → N → str → str)
    (text : str) (T : list str) (x : str) : Prop :=
  x ∈ T ∧ occurs_in x (normalize_text unicode_lower text).

Definition token_pass (unicode_lower : str → N → str → str)
    (text : str) (T : list str) (x : str) : Prop :=
  ∃ tok, token_run text tok ∧ lower unicode_lower tok = x ∧ x ∈ T.

(** * Sample runs

    The inputs of the examples of the specification, and closed stand-ins
    for the runtime parameters. The sample texts are ASCII, so [str.lower]
    never consults the Unicode table on them, and no sample run reaches
    [json.dumps] or the [str()] of a value that is no string. *)

Definition RESUME_1 : str :=
  codes "Experienced Python and React developer, used Docker and AWS.".
Definition JOB_1 : str :=
  codes "Looking for Python, Django, Docker, Kubernetes.".
Definition RESUME_3 : str :=
  codes "Ten years of C++ and C# on Linux.".

(** A job description that asks for machine learning without the words
    "machine learning" or "NLP". *)
Definition JOB_ML : str :=
  codes "Deep learning with PyTorch, TensorFlow and scikit-learn.".

Definition ascii_lower : str → N → str → str := λ _ c _, [Char.lower_ascii c].
Definition no_repr : pyval → str := λ _, [].

(** Eight suggestions, and the JSON array that holds them. *)
Definition EIGHT : list str := codes <$>
  [ "Add Kubernetes"; "Add Django"; "Quantify results"; "List key projects";
    "Mention Docker"; "Shorten the summary"; "Add certifications";
    "Link the portfolio" ]%string.

Definition EIGHT_JSON : str :=
  codes "[" ++ join (codes ", ") ((λ s, DQ ++ s ++ DQ) <$> EIGHT) ++ codes "]".

Definition BULLETS : str :=
  codes "- Add Kubernetes" ++ NL ++ codes "* Quantify results" ++ NL.

(** [json.loads] on the texts of the sample runs: it decodes [{}] and the
    array of [EIGHT_JSON], and raises on [BULLETS], which is no JSON. It is
    applied to no other text. *)
Definition json_loads_sample (s : str) : option pyval :=
  if bool_decide (s = codes "{}") then Some (PDict [])
  else if bool_decide (s = EIGHT_JSON) then Some (PList (PStr <$> EIGHT))
  else None.

(** No credential, no [openai] module: only the heuristic can answer. *)
Definition OFFLINE : World := {|
  GOOGLE_API_KEY := None;
  GEMINI_API_KEY := None;
  GEMINI_MODEL := None;
  OPENAI_API_KEY := None;
  openai_imported := false;
  requests_post := λ _ _, Raise;
  chat_completion := λ _, Raise
|}.

(** Both providers configured; provider A answers with the text [out] in
    [candidates[0].output], provider B with the content [content]. *)
Definition ONLINE (out content : str) : World := {|
  GOOGLE_API_KEY := Some (codes "g-key");
  GEMINI_API_KEY := None;
  GEMINI_MODEL := None;
  OPENAI_API_KEY := Some (codes "o-key");
  openai_imported := true;
  requests_post := λ _ _,
    Ok (PDict [(codes "candidates", PList [PDict [(codes "output", PStr out)]])]);
  chat_completion := λ _, Ok (PStr content)
|}.

(** The URL of the request of provider A, for the key and the model name of
    the environment (lines 93-99). *)
Definition gemini_request_url (W : World) : str :=
  match Py.env_or (GOOGLE_API_KEY W) (GEMINI_API_KEY W) with
  | Some api_key =>
      gemini_url (default (codes "text-bison-001") (GEMINI_MODEL W)) api_key
  | None => []
  end.

(** ** [extract_text_from_file] (nlp.py, lines 24-48) *)

(** A Python [bytes]: the list of its bytes. *)
Abbreviation bytes := (list N).

(** [s.endswith(suffix)] *)
Definition ends_with (s suffix : str) : bool :=
  is_prefix (reverse suffix) (reverse s).

Section Files.

Variable unicode_lower : str → N → str → str.
(** [raw_bytes.decode("utf-8", errors="ignore")], which never raises. *)
Variable decode_ignore : bytes → str.
(** Lines 32-35: the texts [p.extract_text()] of the pages that PyPDF2
  reads, or the exception of the import, of the reader or of a page. *)
Variable pdf_pages : bytes → res (list pyval).
(** Lines 38-41: the texts [p.text] of the paragraphs that python-docx
  reads, or the exception of the import or of the reader. *)
Variable docx_paragraphs : bytes → res (list pyval).

Definition extract_text_from_file (filename : str) (raw_bytes : bytes) : str :=
let lower := lower unicode_lower filename in
try_except
  (if ends_with lower (codes ".txt") then Ok (decode_ignore raw_bytes)
   else if ends_with lower (codes ".pdf") then
     pages ← pdf_pages raw_bytes; Py.str_join NL pages
   else if ends_with lower (codes ".docx") then
     paragraphs ← docx_paragraphs raw_bytes; Py.str_join NL paragraphs
   else Ok (decode_ignore raw_bytes))
  (decode_ignore raw_bytes).

End Files.

(** ** The endpoints (main.py) *)

Module Main.

Record AnalyzeRequest : Type := {
req_resume_text : option str;
req_job_description : option str
}.

Section Endpoints.

Variable unicode_lower : str → N → str → str.
Variable json_loads : str → option pyval.
Variable json_dumps : pyval → str.
Variable py_repr : pyval → str.
Variable decode_ignore : bytes → str.
Variable pdf_pages : bytes → res (list pyval).
Variable docx_paragraphs : bytes → res (list pyval).
Variable W : World.

(** [POST /analyze] (lines 20-25) *)
Definition analyze (req : AnalyzeRequest) : io AnalysisResult :=
let resume := default [] (req_resume_text req) in
let job := default [] (req_job_description req) in
analyze_resume_and_job unicode_lower json_loads json_dumps py_repr W
(Some resume) (Some job).

(** [POST /analyze-upload] (lines 27-32): [filename] and [raw] are the name
and the content of the uploaded file. *)
Definition analyze_upload (filename : str) (raw : bytes) (job_description : str)
: io AnalysisResult :=
let text :=
extract_text_from_file unicode_lower decode_ignore pdf_pages docx_paragraphs
  filename raw in
analyze_resume_and_job unicode_lower json_loads json_dumps py_repr W
(Some text) (Some job_description).

End Endpoints.

End Main.

(** ** The requests of the frontend (frontend/app.py, lines 33-71) *)

Module Frontend.

(** What [requests.post] is asked to send: the multipart upload of lines
  37-39, whose file part is named by the first component of the pair, or
  the JSON body of lines 41-42. *)
Inductive request : Type :=
| PostAnalyzeUpload (filename : str) (resume_file : bytes) (job_description : str)
| PostAnalyze (resume_text job_description : str).

(** The request that [send_to_api] builds (lines 36-42). *)
Definition request_of (resume_bytes job_bytes : option bytes)
  (resume_text job_text : str) : request :=
match resume_bytes with
| Some (b :: bs) => PostAnalyzeUpload (codes "resume") (b :: bs) job_text
| _ => PostAnalyze resume_text job_text
end.

(** [post] is the transport, [requests.post], which may raise. *)
Definition send_to_api {A} (post : request → res A)
  (resume_bytes job_bytes : option bytes) (resume_text job_text : str)
: option A :=
match post (request_of resume_bytes job_bytes resume_text job_text) with
| Ok response => Some response
| Raise => None
end.

(** Lines 63-71: [uploaded_resume] and [uploaded_job] are the contents that
  [read()] gives for the two uploaders ([None] when nothing is uploaded);
  the result is [None] when nothing is sent. *)
Definition handle_submission {A} (post : request → res A) (submitted : bool)
  (uploaded_resume uploaded_job : option bytes) (job_text user_input : str)
: option (option A) :=
if submitted || bool_decide (is_Some uploaded_resume) then
  match uploaded_resume with
  | Some resume_bytes =>
      let job_bytes := uploaded_job in
      Some (send_to_api post (Some resume_bytes) job_bytes [] job_text)
  | None =>
      Some (send_to_api post None None user_input job_text)
  end
else None.

End Frontend.

(** The two routes of the backend, applied to a request of the frontend. *)
Definition serve (unicode_lower : str → N → str → str) (json_loads : str → option pyval)
    (json_dumps py_repr : pyval → str) (decode_ignore : bytes → str)
    (pdf_pages docx_paragraphs : bytes → res (list pyval)) (W : World)
    (req : Frontend.request) : io AnalysisResult :=
  match req with
  | Frontend.PostAnalyzeUpload filename raw job_description =>
      Main.analyze_upload unicode_lower json_loads json_dumps py_repr
        decode_ignore pdf_pages docx_paragraphs W filename raw job_description
  | Frontend.PostAnalyze resume_text job_description =>
      Main.analyze unicode_lower json_loads json_dumps py_repr W
        {| Main.req_resume_text := Some resume_text;
           Main.req_job_description := Some job_description |}
  end.

(** ** More sample inputs *)

(** Both providers configured, both services failing. *)
Definition DOWN : World := {|
  GOOGLE_API_KEY := Some (codes "g-key");
  GEMINI_API_KEY := None;
  GEMINI_MODEL := None;
  OPENAI_API_KEY := Some (codes "o-key");
  openai_imported := true;
  requests_post := λ _ _, Raise;
  chat_completion := λ _, Raise
|}.

(** UTF-8 decoding on bytes below 128, where it is the identity; it is
    applied to no other bytes. *)
Definition decode_sample : bytes → str := λ raw, raw.

(** Readers that fail on every input, and a PDF reader that finds two
    pages. *)
Definition no_reader : bytes → res (list pyval) := λ _, Raise.
Definition two_pages : bytes → res (list pyval) :=
  λ _, Ok [PStr (codes "Python and Docker"); PStr (codes "AWS")].

(** The flag of [collapse_ws_go] after the text [p], started with flag [f]:
    whether [p] ends in white space. *)
Definition flag_after (f : bool) (p : str) : bool :=
  match last p with Some c => Char.is_space c | None => f end.

(** * Properties *)

(** ** Character classes *)

Ltac char_props :=
  unfold Char.allowed, Char.kept, Char.token_char, Char.is_bullet,
    Char.is_space, Char.is_linebreak, Char.is_upper, Char.is_lower,
    Char.is_digit, Char.is_ascii, Char.lower_ascii, Char.between,
    Char.SPACE, Char.PLUS, Char.HASH, Char.DOT, Char.DASH, Char.STAR,
    Char.TAB, Char.BULLET in *;
  repeat match goal with
    | H : _ = false |- _ => apply not_true_iff_false in H
    | |- _ = false => apply not_true_iff_false
    end;
  rewrite ?orb_true_iff, ?andb_true_iff, ?N.leb_le, ?N.eqb_eq, ?N.ltb_lt in *.

Ltac char_solve := intros; char_props; lia.

Lemma allowed_kept c : Char.allowed c = true → Char.kept c = true.
Proof. char_solve. Qed.

Lemma allowed_space c :
  Char.allowed c = true → Char.is_space c = true → c = Char.SPACE.
Proof. char_solve. Qed.

Lemma kept_not_space_allowed c :
  Char.kept c = true → Char.is_space c = false → Char.allowed c = true.
Proof. char_solve. Qed.

Lemma allowed_ascii c : Char.allowed c = true → Char.is_ascii c = true.
Proof. char_solve. Qed.

Lemma allowed_not_upper c : Char.allowed c = true → Char.is_upper c = false.
Proof. char_solve. Qed.

Lemma allowed_lower_ascii c : Char.allowed c = true → Char.lower_ascii c = c.
Proof.
  intros H. unfold Char.lower_ascii. by rewrite (allowed_not_upper c H).
Qed.

(** ** Scanning primitives *)

Section ScanFacts.

Implicit Types (p : N → bool) (s : str) (c : N).

Lemma take_drop_while p s : take_while p s ++ drop_while p s = s.
Proof. induction s as [|c s IH]; simpl; [done|]. destruct (p c); simpl; congruence. Qed.

Lemma take_while_Forall p s : Forall (λ c, p c = true) (take_while p s).
Proof.
  induction s as [|c s IH]; simpl; [constructor|].
  destruct (p c) eqn:E; by constructor.
Qed.

Lemma drop_while_head p s c : head (drop_while p s) = Some c → p c = false.
Proof.
  induction s as [|d s IH]; simpl; [done|].
  destruct (p d) eqn:E; [done|]. simpl. congruence.
Qed.

Lemma drop_while_id p s :
  (∀ c, head s = Some c → p c = false) → drop_while p s = s.
Proof. destruct s as [|d s]; simpl; [done|]. intros H. by rewrite (H d). Qed.

Lemma drop_while_last p s c :
  last (drop_while p s) = Some c → last s = Some c.
Proof.
  intros H. rewrite <- (take_drop_while p s), last_app, H. done.
Qed.

Lemma strip_chars_infix p s :
  ∃ pre post, s = pre ++ strip_chars p s ++ post.
Proof.
  unfold strip_chars. set (d := drop_while p s).
  exists (take_while p s), (reverse (take_while p (reverse d))).
  rewrite <- reverse_app, take_drop_while, reverse_involutive.
  symmetry. apply take_drop_while.
Qed.

Lemma strip_chars_head p s c : head (strip_chars p s) = Some c → p c = false.
Proof.
  unfold strip_chars. rewrite head_reverse. intros H%drop_while_last.
  rewrite last_reverse in H. by eapply drop_while_head.
Qed.

Lemma strip_chars_last p s c : last (strip_chars p s) = Some c → p c = false.
Proof. unfold strip_chars. rewrite last_reverse. apply drop_while_head. Qed.

Lemma strip_chars_id p s :
  (∀ c, head s = Some c → p c = false) →
  (∀ c, last s = Some c → p c = false) →
  strip_chars p s = s.
Proof.
  intros Hh Hl. unfold strip_chars.
  rewrite (drop_while_id p s Hh), drop_while_id, reverse_involutive; [done|].
  intros c. rewrite head_reverse. apply Hl.
Qed.

Lemma strip_chars_nil p : strip_chars p [] = [].
Proof. done. Qed.

End ScanFacts.

(** ** [normalize_text] *)


Lemma no_double_space_cons c s :
  no_double_space (c :: s) ↔
  (c = Char.SPACE → head s ≠ Some Char.SPACE) ∧ no_double_space s.
Proof.
  unfold no_double_space. split.
  - intros H. split.
    + intros ->. specialize (H 0%nat eq_refl). by destruct s.
    + intros i. apply (H (S i)).
  - intros [H0 H] [|i]; simpl.
    + intros [= ->]. specialize (H0 eq_refl). by destruct s.
    + apply H.
Qed.

Lemma no_double_space_infix pre s post :
  no_double_space (pre ++ s ++ post) → no_double_space s.
Proof.
  intros H i Hi Hi'. apply (H (length pre + i)%nat).
  - rewrite lookup_app_r by lia. replace (length pre + i - length pre)%nat with i by lia.
    by apply lookup_app_l_Some.
  - replace (S (length pre + i)) with (length pre + S i)%nat by lia.
    rewrite lookup_app_r by lia. replace (length pre + S i - length pre)%nat with (S i) by lia.
    by apply lookup_app_l_Some.
Qed.

Section NormalizeFacts.

Variable unicode_lower : str → N → str → str.

Lemma blank_disallowed_kept s :
  Forall (λ c, Char.kept c = true) (blank_disallowed s).
Proof.
  unfold blank_disallowed. apply Forall_fmap, Forall_true. intros c. simpl.
  by destruct (Char.kept c) eqn:E.
Qed.

Lemma collapse_ws_go_allowed b s :
  Forall (λ c, Char.kept c = true) s →
  Forall (λ c, Char.allowed c = true) (collapse_ws_go b s).
Proof.
  intros H. revert b. induction H as [|c s Hc _ IH]; intros b; simpl; [constructor|].
  destruct (Char.is_space c) eqn:E.
  - destruct b; [apply IH|]. constructor; [done | apply IH].
  - constructor; [by apply kept_not_space_allowed | apply IH].
Qed.

Lemma collapse_ws_go_head b s c :
  head (collapse_ws_go b s) = Some c →
  (b = true → Char.is_space c = false) ∧
  (Char.is_space c = true → c = Char.SPACE).
Proof.
  revert b. induction s as [|d s IH]; intros b; simpl; [done|].
  destruct (Char.is_space d) eqn:E.
  - destruct b.
    + intros H. destruct (IH true H) as [H1 H2]. auto.
    + simpl. intros [= <-]. done.
  - simpl. intros [= <-]. split; [done | congruence].
Qed.

Lemma collapse_ws_go_no_double b s : no_double_space (collapse_ws_go b s).
Proof.
  revert b. induction s as [|d s IH]; intros b; simpl; [by intros i|].
  destruct (Char.is_space d) eqn:E.
  - destruct b; [apply IH|]. apply no_double_space_cons. split; [|apply IH].
    intros _ H. by destruct (collapse_ws_go_head true s _ H) as [H1 _]; specialize (H1 eq_refl).
  - apply no_double_space_cons. split; [|apply IH]. intros ->. done.
Qed.

End NormalizeFacts.


Section NormalizeTheory.

Variable unicode_lower : str → N → str → str.

Lemma normalize_text_normal s : normal (normalize_text unicode_lower s).
Proof.
  unfold normalize_text, strip.
  set (u := collapse_ws (blank_disallowed (lower unicode_lower s))).
  assert (Hu : Forall (λ c, Char.allowed c = true) u)
    by apply collapse_ws_go_allowed, blank_disallowed_kept.
  assert (Hd : no_double_space u) by apply collapse_ws_go_no_double.
  destruct (strip_chars_infix Char.is_space u) as (pre & post & E).
  repeat split.
  - rewrite E in Hu. by apply Forall_app in Hu as [_ [Hu _]%Forall_app].
  - rewrite E in Hd. by eapply no_double_space_infix.
  - apply strip_chars_head.
  - apply strip_chars_last.
Qed.

Lemma lower_from_ascii before s :
  Forall (λ c, Char.is_ascii c = true) s →
  lower_from unicode_lower before s = Char.lower_ascii <$> s.
Proof.
  intros H. revert before. induction H as [|c s Hc _ IH]; intros before; csimpl.
  - done.
  - by rewrite Hc, IH.
Qed.

Lemma lower_ascii_text s :
  Forall (λ c, Char.is_ascii c = true) s →
  lower unicode_lower s = Char.lower_ascii <$> s.
Proof. apply lower_from_ascii. Qed.

(** An ASCII stretch of a text is lower-cased in place, whatever the
    text holds before and after it. *)
Lemma lower_from_infix before a w b :
  Forall (λ c, Char.is_ascii c = true) w →
  ∃ a', lower_from unicode_lower before (a ++ w ++ b)
        = a' ++ (Char.lower_ascii <$> w)
             ++ lower_from unicode_lower (before ++ a ++ w) b.
Proof.
  intros Hw. revert before. induction a as [|d a IH]; intros before.
  - exists []. simpl. revert before.
    induction Hw as [|c w Hc _ IHw]; intros before; csimpl.
    + by rewrite app_nil_r.
    + rewrite Hc. simpl. f_equal. rewrite IHw.
      by rewrite <- (app_assoc before [c] w).
  - destruct (IH (before ++ [d])) as [a' E]. simpl. rewrite E.
    set (X := if Char.is_ascii d then _ else _).
    exists (X ++ a'). rewrite <- (app_assoc X a'), <- (app_assoc before [d]).
    reflexivity.
Qed.

Lemma lower_allowed s :
  Forall (λ c, Char.allowed c = true) s → lower unicode_lower s = s.
Proof.
  intros H. rewrite lower_ascii_text.
  - induction H as [|c s Hc _ IH]; csimpl; [done|].
    by rewrite (allowed_lower_ascii c Hc), IH.
  - eapply Forall_impl; [exact H|]. apply allowed_ascii.
Qed.

Lemma blank_disallowed_allowed s :
  Forall (λ c, Char.allowed c = true) s → blank_disallowed s = s.
Proof.
  unfold blank_disallowed. induction 1 as [|c s Hc _ IH]; csimpl; [done|].
  by rewrite (allowed_kept c Hc), IH.
Qed.

Lemma collapse_ws_go_fixed b s :
  Forall (λ c, Char.allowed c = true) s →
  no_double_space s →
  (b = true → ∀ c, head s = Some c → Char.is_space c = false) →
  collapse_ws_go b s = s.
Proof.
  intros H. revert b. induction H as [|c s Hc Hs IH]; intros b Hd Hb; simpl; [done|].
  apply no_double_space_cons in Hd as [Hc' Hd].
  destruct (Char.is_space c) eqn:E.
  - destruct b; [by rewrite (Hb eq_refl c) in E|].
    pose proof (allowed_space c Hc E) as ->. f_equal.
    apply IH; [done|]. intros _ d Hd'.
    destruct (Char.is_space d) eqn:E'; [|done]. exfalso. apply (Hc' eq_refl).
    rewrite Hd'. f_equal. apply allowed_space; [|done].
    destruct s; simplify_eq/=. by inversion Hs.
  - f_equal. apply IH; [done|]. intros [=].
Qed.

Lemma normalize_text_fixed t : normal t → normalize_text unicode_lower t = t.
Proof.
  intros (Ha & Hd & Hh & Hl). unfold normalize_text, collapse_ws, strip.
  rewrite (lower_allowed t Ha), (blank_disallowed_allowed t Ha).
  rewrite collapse_ws_go_fixed by done. by apply strip_chars_id.
Qed.

End NormalizeTheory.

(** ** Substrings *)


Lemma is_prefix_spec p s : is_prefix p s = true ↔ ∃ post, s = p ++ post.
Proof.
  revert s. induction p as [|a p IH]; intros s; simpl.
  - split; [by exists s | done].
  - destruct s as [|b s]; [by split; [|intros [? ?]] |].
    rewrite andb_true_iff, N.eqb_eq, IH. split.
    + intros [-> [post ->]]. by exists post.
    + intros [post [= -> ->]]. eauto.
Qed.

Lemma contains_spec s p : contains s p = true ↔ occurs_in p s.
Proof.
  unfold occurs_in. induction s as [|c s IH]; simpl.
  - rewrite orb_false_r, is_prefix_spec. split.
    + intros [post E]. by exists [], post.
    + intros (pre & post & E). symmetry in E.
      apply app_eq_nil in E as [-> E]. by exists post.
  - rewrite orb_true_iff, is_prefix_spec, IH. split.
    + intros [[post E] | (pre & post & E)].
      * by exists [], post.
      * exists (c :: pre), post. by rewrite E.
    + intros ([|d pre] & post & E).
      * left. by exists post.
      * right. simplify_eq/=. by exists pre, post.
Qed.

(** ** The order of [sorted] *)

Lemma str_leb_refl a : str_leb a a = true.
Proof.
  induction a as [|x a IH]; simpl; [done|].
  by rewrite N.eqb_refl, IH, orb_true_r.
Qed.

#[global] Instance str_le_total : Total str_le.
Proof.
  unfold str_le. intros a. induction a as [|x a IH]; intros [|y b]; simpl; auto.
  destruct (N.lt_trichotomy x y) as [H | [-> | H]].
  - left. by rewrite (proj2 (N.ltb_lt _ _) H).
  - rewrite N.eqb_refl, N.ltb_irrefl. simpl. apply IH.
  - right. by rewrite (proj2 (N.ltb_lt _ _) H).
Qed.

#[global] Instance str_le_trans : Transitive str_le.
Proof.
  unfold str_le. intros a. induction a as [|x a IH]; intros [|y b] [|z c]; simpl; try done.
  rewrite !orb_true_iff, !andb_true_iff, !N.ltb_lt, !N.eqb_eq.
  intros [H1 | [-> H1]] [H2 | [-> H2]]; try (left; lia); auto.
  right. split; [done|]. by eapply IH.
Qed.

#[global] Instance str_le_antisym : AntiSymm (=) str_le.
Proof.
  unfold str_le. intros a. induction a as [|x a IH]; intros [|y b]; simpl; try done.
  rewrite !orb_true_iff, !andb_true_iff, !N.ltb_lt, !N.eqb_eq.
  intros [H1 | [-> H1]] [H2 | [E H2]]; try lia. f_equal. by apply IH.
Qed.

(** ** [sorted] *)

Lemma elem_of_sorted (F : gset str) x : x ∈ sorted F ↔ x ∈ F.
Proof. unfold sorted. by rewrite merge_sort_Permutation, elem_of_elements. Qed.

Lemma NoDup_sorted (F : gset str) : NoDup (sorted F).
Proof. unfold sorted. rewrite merge_sort_Permutation. apply NoDup_elements. Qed.

Lemma Sorted_sorted (F : gset str) : Sorted str_le (sorted F).
Proof. apply (Sorted_merge_sort str_le). Qed.

(** Without duplicates the order is strict: each element is strictly below
    all the later ones. *)
Lemma StronglySorted_sorted (F : gset str) : StronglySorted str_lt (sorted F).
Proof.
  pose proof (NoDup_sorted F) as Hn.
  pose proof (Sorted_StronglySorted _ _ (Sorted_sorted F)) as Hs.
  induction Hs as [|x l Hs IH Hx]; [constructor|].
  apply NoDup_cons in Hn as [Hx' Hn]. constructor; [by apply IH|].
  apply Forall_forall. intros y Hy. split.
  - by eapply Forall_forall in Hx.
  - intros ->. done.
Qed.

Lemma sorted_empty : sorted ∅ = [].
Proof. done. Qed.

Lemma sorted_nil_iff (F : gset str) : sorted F = [] ↔ F = ∅.
Proof.
  split; [|intros ->; apply sorted_empty].
  intros E. apply set_eq. intros x. rewrite <- elem_of_sorted, E. set_solver.
Qed.

(** ** The token pass *)


Section TokenFacts.

Implicit Types (p : N → bool) (s m rest tok : str).

Lemma drop_length_take_while p s :
  drop (length (take_while p s)) s = drop_while p s.
Proof.
  rewrite <- (take_drop_while p s) at 2. by rewrite drop_app_length.
Qed.

(** A prefix of [p]-characters followed by a non-[p] character (or the
    end) is what [take_while] takes. *)
Lemma take_while_unique p m rest :
  Forall (λ c, p c = true) m →
  (∀ c, head rest = Some c → p c = false) →
  take_while p (m ++ rest) = m.
Proof.
  intros Hm Hr. induction Hm as [|c m Hc _ IH]; simpl.
  - destruct rest as [|d rest]; simpl; [done|]. by rewrite (Hr d).
  - by rewrite Hc, IH.
Qed.

Lemma token_run_nil tok : ¬ token_run [] tok.
Proof.
  intros (pre & post & E & _ & Hl & _). symmetry in E.
  apply app_eq_nil in E as [_ [-> _]%app_eq_nil]. simpl in Hl. lia.
Qed.

(** Past a character that is no token character. *)
Lemma token_run_skip c s tok :
  Char.token_char c = false → token_run (c :: s) tok ↔ token_run s tok.
Proof.
  intros Hc. split.
  - intros (pre & post & E & Ht & Hl & Hpre & Hpost).
    destruct pre as [|d pre].
    + destruct tok as [|d tok]; simpl in *; [lia|]. simplify_eq.
      apply Forall_cons in Ht as [Ht _]. congruence.
    + simplify_eq/=. exists pre, post. split_and!; try done.
      intros c Hc'. apply Hpre. destruct pre; [done|]. by rewrite last_cons, Hc'.
  - intros (pre & post & -> & Ht & Hl & Hpre & Hpost).
    exists (c :: pre), post. split_and!; try done.
    intros d. rewrite last_cons. destruct (last pre) as [e|] eqn:E.
    + intros [= <-]. by apply Hpre.
    + by intros [= <-].
Qed.

(** Past a maximal run [m]. *)
Lemma token_run_app m rest tok :
  m ≠ [] →
  Forall (λ c, Char.token_char c = true) m →
  (∀ c, head rest = Some c → Char.token_char c = false) →
  token_run (m ++ rest) tok ↔
  (tok = m ∧ (2 ≤ length m)%nat) ∨ token_run rest tok.
Proof.
  intros Hne Hm Hrest. split.
  - intros (pre & post & E & Ht & Hl & Hpre & Hpost).
    destruct pre as [|d pre _] using rev_ind.
    + left. simpl in E.
      assert (tok = m) as ->; [|done].
      rewrite <- (take_while_unique Char.token_char tok post Ht Hpost).
      rewrite <- E. by apply take_while_unique.
    + right. specialize (Hpre d). rewrite last_snoc in Hpre. specialize (Hpre eq_refl).
      rewrite <- app_assoc in E. simpl in E.
      apply app_eq_inv in E as [(k & E1 & E2) | (k & E1 & E2)].
      * destruct k as [|e k].
        -- (* [d] is the first character after [m] *)
           rewrite app_nil_r in E1. subst pre. simpl in E2. subst rest.
           exists [d], post. split_and!; done.
        -- (* [d] would lie inside [m] *)
           simplify_eq/=. apply Forall_app in Hm as [_ [Hd _]%Forall_cons].
           congruence.
      * subst pre rest. exists (k ++ [d]), post. split_and!; try done.
        -- by rewrite <- app_assoc.
        -- intros c. rewrite last_snoc. by intros [= <-].
  - intros [[-> Hl] | (pre & post & -> & Ht & Hl & Hpre & Hpost)].
    + exists [], rest. split_and!; done.
    + exists (m ++ pre), post. split_and!; try done.
      * by rewrite app_assoc.
      * intros c. destruct pre as [|d pre _] using rev_ind.
        -- destruct tok as [|t tok]; [simpl in Hl; lia|].
           apply Forall_cons in Ht as [Ht _]. simpl in Hrest.
           rewrite (Hrest t eq_refl) in Ht. done.
        -- rewrite app_assoc, last_snoc. intros [= <-]. apply Hpre. by rewrite last_snoc.
Qed.

Lemma drop_while_head_token s c :
  head (drop_while Char.token_char s) = Some c → Char.token_char c = false.
Proof. apply drop_while_head. Qed.

Lemma findall_tokens_fuel_spec fuel s tok :
  (length s ≤ fuel)%nat →
  tok ∈ findall_tokens_fuel fuel s ↔ token_run s tok.
Proof.
  revert s. induction fuel as [|fuel IH]; intros s Hlen.
  - destruct s; [|simpl in Hlen; lia]. simpl.
    split; [by intros ?%elem_of_nil | by intros ?%token_run_nil].
  - destruct s as [|c r].
    { simpl. split; [by intros ?%elem_of_nil | by intros ?%token_run_nil]. }
    cbn [findall_tokens_fuel].
    set (m := take_while Char.token_char (c :: r)).
    assert (Hm : Forall (λ c, Char.token_char c = true) m) by apply take_while_Forall.
    assert (Es : c :: r = m ++ drop_while Char.token_char (c :: r))
      by (symmetry; apply take_drop_while).
    destruct (Char.token_char c) eqn:Hc.
    + (* a run starts here *)
      assert (Hne : m ≠ []) by (subst m; simpl; by rewrite Hc).
      assert (Hdl : (length (drop_while Char.token_char (c :: r)) ≤ fuel)%nat).
      { apply (f_equal length) in Es. rewrite length_app in Es. simpl in Es.
        destruct m; [done|]. simpl in *. lia. }
      pose proof (token_run_app m _ tok Hne Hm
                    (drop_while_head Char.token_char (c :: r))) as Hrun.
      rewrite <- Es in Hrun. rewrite Hrun.
      destruct (2 <=? length m)%nat eqn:E2.
      * apply Nat.leb_le in E2. subst m.
        rewrite drop_length_take_while, elem_of_cons, IH by done. tauto.
      * apply Nat.leb_gt in E2.
        assert (m = [c] ∧ drop_while Char.token_char (c :: r) = r) as [Em Er].
        { subst m. simpl in *. rewrite Hc in *. simpl in E2.
          destruct (take_while Char.token_char r) eqn:Et; [|simpl in E2; lia].
          split; [done|]. simpl in Es. by simplify_eq. }
        rewrite Er, IH by (simpl in Hlen; lia). rewrite Em in E2 |- *.
        split; [auto | intros [[_ ?]|?]; [simpl in *; lia | done]].
    + (* no run starts here *)
      assert (m = []) as -> by (subst m; simpl; by rewrite Hc). simpl.
      rewrite IH by (simpl in Hlen; lia). symmetry. by apply token_run_skip.
Qed.

(** [re.findall] returns exactly the maximal runs of at least two token
    characters. *)
Lemma findall_tokens_spec text tok :
  tok ∈ findall_tokens text ↔ token_run text tok.
Proof. by apply findall_tokens_fuel_spec. Qed.

(** More fuel than the length of the text changes nothing. *)
Lemma findall_tokens_fuel_irrel fuel1 fuel2 s :
  (length s ≤ fuel1)%nat → (length s ≤ fuel2)%nat →
  findall_tokens_fuel fuel1 s = findall_tokens_fuel fuel2 s.
Proof.
  revert fuel2 s. induction fuel1 as [|fuel1 IH]; intros fuel2 s H1 H2.
  { destruct s; [|simpl in H1; lia]. by destruct fuel2. }
  destruct s as [|c r]; [by destruct fuel2|].
  destruct fuel2 as [|fuel2]; [simpl in H2; lia|].
  cbn [findall_tokens_fuel].
  set (m := take_while Char.token_char (c :: r)).
  destruct (2 <=? length m)%nat eqn:E2.
  - apply Nat.leb_le in E2. f_equal.
    apply IH; rewrite length_drop; simpl in *; lia.
  - apply IH; simpl in *; lia.
Qed.

Lemma findall_tokens_fuel_enough fuel text :
  (length text ≤ fuel)%nat →
  findall_tokens_fuel fuel text = findall_tokens text.
Proof. intros H. by apply findall_tokens_fuel_irrel. Qed.

End TokenFacts.

(** [str_le] is the lexicographic order of the code points: [a <= b] when
    [a] is a prefix of [b], or the two differ first at a position where
    [a] has the smaller code point. *)
Lemma str_le_lexicographic a b :
  str_le a b ↔
  (∃ post, b = a ++ post) ∨
  (∃ p x y a' b', a = p ++ x :: a' ∧ b = p ++ y :: b' ∧ (x < y)%N).
Proof.
  unfold str_le. revert b. induction a as [|x a IH]; intros b; simpl.
  - split; [|done]. intros _. left. by exists b.
  - destruct b as [|y b].
    + split; [done|]. intros [[post [=]] | (p & x' & y' & a' & b' & _ & E & _)].
      by destruct p.
    + rewrite orb_true_iff, andb_true_iff, N.ltb_lt, N.eqb_eq, IH. split.
      * intros [H | [-> [[post ->] | (p & x' & y' & a' & b' & -> & -> & H)]]].
        -- right. by exists [], x, y, a, b.
        -- left. by exists post.
        -- right. by exists (y :: p), x', y', a', b'.
      * intros [[post [= -> ->]] | (p & x' & y' & a' & b' & Ea & Eb & H)].
        -- right. split; [done|]. left. by exists post.
        -- destruct p as [|z p]; simplify_eq/=; [by left|].
           right. split; [done|]. right. by exists p, x', y', a', b'.
Qed.

(** ** [extract_skills] *)

Section ExtractFacts.

Variable unicode_lower : str → N → str → str.

Lemma elem_of_substring_pass (t : str) (skills_list : list str)
    (found : gset str) (x : str) :
  x ∈ foldl (add_if_substring t) found skills_list ↔
  x ∈ found ∨ (x ∈ skills_list ∧ contains t x = true).
Proof.
  revert found. induction skills_list as [|k l IH]; intros found; simpl.
  - split; [auto | intros [?|[?%elem_of_nil _]]; done].
  - rewrite IH, elem_of_cons. unfold add_if_substring.
    destruct (contains t k) eqn:E.
    + rewrite elem_of_union, elem_of_singleton. split.
      * intros [[->|?]|[? ?]]; auto.
      * intros [?|[[->|?] ?]]; auto.
    + split.
      * intros [?|[? ?]]; auto.
      * intros [?|[[->|?] ?]]; auto. congruence.
Qed.

Lemma elem_of_token_pass (skills_list tokens : list str)
    (found : gset str) (x : str) :
  x ∈ foldl (add_if_listed unicode_lower skills_list) found tokens ↔
  x ∈ found ∨
  (x ∈ skills_list ∧ ∃ tok, tok ∈ tokens ∧ lower unicode_lower tok = x).
Proof.
  revert found. induction tokens as [|k l IH]; intros found; simpl.
  - split; [auto | intros [?|[_ (? & ?%elem_of_nil & _)]]; done].
  - rewrite IH. unfold add_if_listed. case_bool_decide as E.
    + rewrite elem_of_union, elem_of_singleton. split.
      * intros [[->|?] | (? & tok & ? & ?)]; auto.
        -- right. split; [done|]. exists k. split; [left|done].
        -- right. split; [done|]. exists tok. split; [by right|done].
      * intros [? | (? & tok & [->|?]%elem_of_cons & ?)]; eauto.
    + split.
      * intros [? | (? & tok & ? & ?)]; auto.
        right. split; [done|]. exists tok. split; [by right|done].
      * intros [? | (? & tok & [->|?]%elem_of_cons & ?)]; eauto.
        subst x. done.
Qed.

Lemma elem_of_extract_skills (text : str) (skills_list : list str) (x : str) :
  x ∈ extract_skills unicode_lower text skills_list ↔
  x ∈ skills_list ∧
  (occurs_in x (normalize_text unicode_lower text) ∨
   ∃ tok, token_run text tok ∧ lower unicode_lower tok = x).
Proof.
  unfold extract_skills.
  rewrite elem_of_sorted, elem_of_token_pass, elem_of_substring_pass.
  rewrite contains_spec. setoid_rewrite findall_tokens_spec.
  rewrite elem_of_empty. tauto.
Qed.

Lemma extract_skills_nil (text : str) : extract_skills unicode_lower text [] = [].
Proof.
  destruct (extract_skills unicode_lower text []) as [|x l] eqn:E; [done|].
  assert (H : x ∈ extract_skills unicode_lower text []) by (rewrite E; left).
  apply elem_of_extract_skills in H as [H%elem_of_nil _]. done.
Qed.

(** A token consists of ASCII characters, so lower-casing it does not
    consult the Unicode table. *)
Lemma lower_token (text tok : str) :
  token_run text tok → lower unicode_lower tok = Char.lower_ascii <$> tok.
Proof.
  intros (_ & _ & _ & Ht & _). apply lower_ascii_text.
  eapply Forall_impl; [exact Ht|]. char_solve.
Qed.

End ExtractFacts.

(** ** [compute_match] *)

Section Rounding.

Local Open Scope Q_scope.

Lemma round_half_even_floor x :
  round_half_even x = Qfloor x ∨ round_half_even x = (Qfloor x + 1)%Z.
Proof.
  unfold round_half_even.
  destruct (x - inject_Z (Qfloor x) ?= 1 # 2); auto.
  destruct (Z.even (Qfloor x)); auto.
Qed.

Lemma round_half_even_mono x y :
  x <= y → (round_half_even x <= round_half_even y)%Z.
Proof.
  intros Hxy. pose proof (Qfloor_resp_le x y Hxy) as Hf.
  destruct (Z.eq_dec (Qfloor x) (Qfloor y)) as [E|E].
  - unfold round_half_even. rewrite <- E.
    destruct (Qcompare_spec (x - inject_Z (Qfloor x)) (1 # 2)) as [Hx|Hx|Hx];
      destruct (Qcompare_spec (y - inject_Z (Qfloor x)) (1 # 2)) as [Hy|Hy|Hy];
      destruct (Z.even (Qfloor x)); try lia; exfalso; lra.
  - destruct (round_half_even_floor x) as [-> | ->];
      destruct (round_half_even_floor y) as [-> | ->]; lia.
Qed.

Lemma round_half_even_comp x y : x == y → round_half_even x = round_half_even y.
Proof.
  intros E. unfold round_half_even. rewrite (Qfloor_comp x y E).
  assert (E' : x - inject_Z (Qfloor y) == y - inject_Z (Qfloor y)) by (by rewrite E).
  by rewrite (Qcompare_comp _ _ E' (1 # 2) (1 # 2) (Qeq_refl _)).
Qed.

(** An integer is its own rounding. *)
Lemma round_half_even_Z (k : Z) : round_half_even (inject_Z k) = k.
Proof.
  unfold round_half_even. rewrite Qfloor_Z.
  destruct (Qcompare_spec (inject_Z k - inject_Z k) (1 # 2)) as [H|H|H];
    [exfalso; lra | done | exfalso; lra].
Qed.

Lemma spacing_pos t : (0 < spacing t)%Z.
Proof. unfold spacing. apply Z.pow_pos_nonneg; lia. Qed.

(** Below the spacing [2^q] of [t] there are at most 53 bits:
    [t < 2^(q+53)]. *)
Lemma spacing_upper t :
  t < inject_Z (2 ^ 53 * spacing t).
Proof.
  unfold spacing. set (f := Qfloor t). set (q := Z.max (Z.log2 f - 52) 0).
  rewrite <- Z.pow_add_r by lia.
  eapply Qlt_le_trans; [apply Qlt_floor|]. fold f. rewrite <- Zle_Qle.
  destruct (Z.lt_ge_cases 0%Z f) as [Hf|Hf].
  - destruct (Z.log2_spec f Hf) as [_ H]. 
    assert (2 ^ Z.succ (Z.log2 f) <= 2 ^ (53 + q))%Z
      by (apply Z.pow_le_mono_r; lia).
    lia.
  - assert (1 <= 2 ^ (53 + q))%Z by (apply (Z.pow_le_mono_r 2 0%Z); lia). lia.
Qed.

(** Where the spacing is coarser than the subnormal step, [t] has its 53
    bits: [2^(q+52) <= t]. *)
Lemma spacing_lower t :
  (1 < spacing t)%Z → inject_Z (2 ^ 52 * spacing t) <= t.
Proof.
  unfold spacing. set (f := Qfloor t). set (q := Z.max (Z.log2 f - 52) 0).
  intros Hq. assert (Hq0 : (0 < q)%Z).
  { destruct (Z.eq_dec q 0%Z) as [E|E]; [|lia]. rewrite E in Hq. simpl in Hq. lia. }
  rewrite <- Z.pow_add_r by lia.
  eapply Qle_trans; [|apply Qfloor_le]. fold f. rewrite <- Zle_Qle.
  assert (Hf : (1 < f)%Z).
  { destruct (Z.le_gt_cases f 1) as [Hf%Z.log2_null|Hf]; [lia|done]. }
  destruct (Z.log2_spec f ltac:(lia)) as [H _].
  replace (52 + q)%Z with (Z.log2 f) by lia. done.
Qed.

Lemma spacing_mono s t : s <= t → (spacing s <= spacing t)%Z.
Proof.
  intros H. unfold spacing. apply Z.pow_le_mono_r; [lia|].
  apply Qfloor_resp_le, Z.log2_le_mono in H. lia.
Qed.

(** The spacing is a power of two: a strictly larger one is at least
    twice as large. *)
Lemma spacing_double s t :
  s <= t → (spacing s < spacing t)%Z → (2 * spacing s <= spacing t)%Z.
Proof.
  intros H. unfold spacing.
  set (a := Z.max _ 0). set (b := Z.max _ 0). intros Hlt.
  assert (Ha : (0 <= a)%Z) by lia.
  assert (a < b)%Z by (apply (Z.pow_lt_mono_r_iff 2%Z); lia).
  replace (2 * 2 ^ a)%Z with (2 ^ (a + 1))%Z by (rewrite Z.pow_add_r; lia).
  apply Z.pow_le_mono_r; lia.
Qed.

Lemma to_spacing_upper t : (to_spacing t <= 2 ^ 53 * spacing t)%Z.
Proof.
  unfold to_spacing. pose proof (spacing_pos t) as Hu.
  apply Z.mul_le_mono_nonneg_r; [lia|].
  rewrite <- (round_half_even_Z (2 ^ 53)%Z). apply round_half_even_mono.
  apply Qle_shift_div_r; [by rewrite <- (Zlt_Qlt 0)|].
  rewrite <- inject_Z_mult. apply Qlt_le_weak, spacing_upper.
Qed.

Lemma to_spacing_lower t :
  (1 < spacing t)%Z → (2 ^ 52 * spacing t <= to_spacing t)%Z.
Proof.
  intros H. unfold to_spacing. pose proof (spacing_pos t) as Hu.
  apply Z.mul_le_mono_nonneg_r; [lia|].
  rewrite <- (round_half_even_Z (2 ^ 52)%Z) at 1. apply round_half_even_mono.
  apply Qle_shift_div_l; [by rewrite <- (Zlt_Qlt 0)|].
  rewrite <- inject_Z_mult. by apply spacing_lower.
Qed.

Lemma to_spacing_mono s t : s <= t → (to_spacing s <= to_spacing t)%Z.
Proof.
  intros H. pose proof (spacing_mono s t H) as Hu.
  pose proof (spacing_pos s) as Hs.
  destruct (Z.eq_dec (spacing s) (spacing t)) as [E|E].
  - unfold to_spacing. rewrite <- E.
    apply Z.mul_le_mono_nonneg_r; [lia|]. apply round_half_even_mono.
    apply Qmult_le_compat_r; [done|].
    apply Qinv_le_0_compat. rewrite <- (Zle_Qle 0). lia.
  - pose proof (spacing_double s t H ltac:(lia)).
    pose proof (to_spacing_upper s). pose proof (to_spacing_lower t ltac:(lia)).
    assert (2 ^ 53 = 2 * 2 ^ 52)%Z by reflexivity. nia.
Qed.

Lemma DENORM_pos : 0 < inject_Z DENORM.
Proof. rewrite <- (Zlt_Qlt 0). unfold DENORM. apply Z.pow_pos_nonneg; lia. Qed.

Lemma fl_pos_mono x y : x <= y → fl_pos x <= fl_pos y.
Proof.
  intros H. unfold fl_pos. rewrite Qred_le.
  apply Qmult_le_compat_r; [|apply Qinv_le_0_compat, Qlt_le_weak, DENORM_pos].
  rewrite <- Zle_Qle. apply to_spacing_mono.
  apply Qmult_le_compat_r; [done | apply Qlt_le_weak, DENORM_pos].
Qed.

Lemma fl_pos_0 : fl_pos 0 = 0.
Proof. vm_compute. reflexivity. Qed.

Lemma fl_mono x y : x <= y → fl x <= fl y.
Proof.
  intros H. unfold fl.
  destruct (Qle_bool 0 x) eqn:Ex, (Qle_bool 0 y) eqn:Ey.
  - by apply fl_pos_mono.
  - apply Qle_bool_iff in Ex. apply not_true_iff_false in Ey.
    rewrite Qle_bool_iff in Ey. exfalso. apply Ey. lra.
  - apply not_true_iff_false in Ex. rewrite Qle_bool_iff in Ex.
    apply Qle_bool_iff in Ey.
    assert (H1 : fl_pos 0 <= fl_pos (- x)) by (apply fl_pos_mono; lra).
    assert (H2 : fl_pos 0 <= fl_pos y) by (by apply fl_pos_mono).
    rewrite fl_pos_0 in H1, H2. lra.
  - assert (H1 : fl_pos (- y) <= fl_pos (- x)) by (apply fl_pos_mono; lra).
    lra.
Qed.

Lemma to_spacing_comp s t : s == t → to_spacing s = to_spacing t.
Proof.
  intros E. unfold to_spacing.
  assert (Es : spacing s = spacing t) by (unfold spacing; by rewrite (Qfloor_comp _ _ E)).
  rewrite Es. f_equal. apply round_half_even_comp. by rewrite E.
Qed.

Lemma fl_pos_comp x y : x == y → fl_pos x = fl_pos y.
Proof.
  intros E. unfold fl_pos.
  rewrite (to_spacing_comp (x * inject_Z DENORM) (y * inject_Z DENORM)); [done|].
  by rewrite E.
Qed.

Lemma fl_comp x y : x == y → fl x = fl y.
Proof.
  intros E. unfold fl. rewrite (Qleb_comp 0 0 (Qeq_refl 0) x y E).
  destruct (Qle_bool 0 y); [by apply fl_pos_comp|].
  f_equal. apply fl_pos_comp. by rewrite E.
Qed.

Lemma round2_mono x y : x <= y → round2 x <= round2 y.
Proof.
  intros Hxy. unfold round2. apply fl_mono.
  unfold Qle. simpl. apply Z.mul_le_mono_nonneg_r; [lia|].
  apply round_half_even_mono. lra.
Qed.

Lemma round2_comp x y : x == y → round2 x = round2 y.
Proof.
  intros E. unfold round2.
  rewrite (round_half_even_comp (x * 100) (y * 100)); [done|]. by rewrite E.
Qed.

Lemma round2_0 : round2 0 = 0.
Proof. vm_compute. reflexivity. Qed.

Lemma round2_100 : round2 100 = 100.
Proof. vm_compute. reflexivity. Qed.

Lemma fl_0 : fl 0 = 0.
Proof. vm_compute. reflexivity. Qed.

Lemma fl_1 : fl 1 = 1.
Proof. vm_compute. reflexivity. Qed.

Lemma fl_100 : fl 100 = 100.
Proof. vm_compute. reflexivity. Qed.

Lemma float_mul_mono x y c : 0 <= c → x <= y → float_mul x c <= float_mul y c.
Proof. intros Hc H. unfold float_mul. by apply fl_mono, Qmult_le_compat_r. Qed.

Lemma true_divide_mono (a b n : Z) :
  (a <= b)%Z → (0 < n)%Z → true_divide a n <= true_divide b n.
Proof.
  intros Hab Hn. unfold true_divide. apply fl_mono, Qmult_le_compat_r.
  - by rewrite <- Zle_Qle.
  - apply Qinv_le_0_compat. rewrite <- (Zle_Qle 0). lia.
Qed.

(** The less of the whole, the smaller the share. *)
Lemma true_divide_anti (a n n' : Z) :
  (0 <= a)%Z → (0 < n)%Z → (n <= n')%Z → true_divide a n' <= true_divide a n.
Proof.
  intros Ha Hn Hn'. unfold true_divide. apply fl_mono.
  assert (H0 : 0 < inject_Z n) by (rewrite <- (Zlt_Qlt 0); lia).
  assert (H0' : 0 < inject_Z n') by (rewrite <- (Zlt_Qlt 0); lia).
  assert (HA : 0 <= inject_Z a) by (by rewrite <- (Zle_Qle 0)).
  assert (HN : inject_Z n <= inject_Z n') by (by rewrite <- Zle_Qle).
  apply Qle_shift_div_l; [done|].
  assert (E : inject_Z a / inject_Z n' * inject_Z n
              == inject_Z a * (inject_Z n / inject_Z n')) by (field; lra).
  assert (Hq : inject_Z n / inject_Z n' <= 1)
    by (apply Qle_shift_div_r; [done | lra]).
  assert (Hq0 : 0 <= inject_Z n / inject_Z n')
    by (apply Qle_shift_div_l; [done | lra]).
  rewrite E. set (q := inject_Z n / inject_Z n') in *. clearbody q. nra.
Qed.

End Rounding.


Section MatchFacts.

Implicit Types (R J : list str).

Lemma size_job_pos J : J ≠ [] → (1 ≤ size (list_to_set J : gset str))%nat.
Proof.
  destruct J as [|x J]; [done|]. intros _.
  assert (size (list_to_set (x :: J) : gset str) ≠ 0%nat); [|lia].
  rewrite size_empty_iff. intros E. apply (not_elem_of_empty (C:=gset str) x).
  rewrite <- E. apply elem_of_list_to_set. left.
Qed.

Lemma compute_match_score_spec R J : compute_match R J = score_spec R J.
Proof.
  unfold compute_match, score_spec. destruct J as [|x J]; [done|].
  rewrite bool_decide_eq_false_2 by done.
  by rewrite Nat.max_r by (by apply size_job_pos).
Qed.

Lemma compute_match_nil R : compute_match R [] = 0%Q.
Proof. done. Qed.

(** The score of [m] skills matched out of [n]. *)
Lemma compute_match_unfold R J :
  J ≠ [] →
  compute_match R J
  = round2 (float_mul
              (true_divide
                 (Z.of_nat (size (list_to_set R ∩ list_to_set J : gset str)))
                 (Z.of_nat (size (list_to_set J : gset str)))) 100).
Proof.
  intros HJ. unfold compute_match. destruct J as [|x J]; [done|].
  by rewrite Nat.max_r by (by apply size_job_pos).
Qed.

Lemma compute_match_disjoint R J :
  (list_to_set R ∩ list_to_set J : gset str) = ∅ → compute_match R J = 0%Q.
Proof.
  intros E. destruct J as [|x J]; [done|].
  rewrite compute_match_unfold, E, size_empty by done.
  unfold true_divide, float_mul.
  set (n := inject_Z (Z.of_nat (size _))).
  rewrite (fl_comp (inject_Z (Z.of_nat 0) / n) 0) by (unfold Qdiv; apply Qmult_0_l).
  rewrite fl_0. rewrite (fl_comp (0 * 100) 0) by reflexivity.
  rewrite fl_0. apply round2_0.
Qed.

Lemma compute_match_mono R1 R2 J :
  (size (list_to_set R1 ∩ list_to_set J : gset str)
   ≤ size (list_to_set R2 ∩ list_to_set J : gset str))%nat →
  (compute_match R1 J <= compute_match R2 J)%Q.
Proof.
  intros H. destruct J as [|x J]; [done|].
  rewrite !compute_match_unfold by done.
  apply round2_mono, float_mul_mono; [done|].
  apply true_divide_mono; [lia|].
  pose proof (size_job_pos (x :: J) ltac:(done)). lia.
Qed.

Lemma size_nonempty (X : gset str) : X ≠ ∅ → (1 ≤ size X)%nat.
Proof.
  intros H. assert (size X ≠ 0%nat); [|lia].
  intros E. apply H, leibniz_equiv. by apply size_empty_iff.
Qed.

(** One skill out of 19999 still scores 0.01. *)
Lemma score_one_of_19999 :
  (0 < round2 (float_mul (true_divide 1 19999) 100))%Q.
Proof. vm_compute. reflexivity. Qed.

Lemma compute_match_pos R J :
  (list_to_set R ∩ list_to_set J : gset str) ≠ ∅ →
  (Z.of_nat (size (list_to_set J : gset str)) < 20000)%Z →
  (0 < compute_match R J)%Q.
Proof.
  intros Hne Hlt. destruct J as [|x J].
  { exfalso. apply Hne. by rewrite list_to_set_nil, intersection_empty_r_L. }
  pose proof (size_nonempty _ Hne) as Hm.
  pose proof (size_job_pos (x :: J) ltac:(done)) as Hn.
  rewrite compute_match_unfold by done.
  set (m := Z.of_nat (size (_ ∩ _))). set (n := Z.of_nat (size _)) in *.
  eapply Qlt_le_trans; [apply score_one_of_19999|].
  apply round2_mono, float_mul_mono; [done|].
  apply Qle_trans with (true_divide 1 n).
  - apply true_divide_anti; lia.
  - apply true_divide_mono; lia.
Qed.

End MatchFacts.

(** ** [heuristic_suggestions] *)

Section HeuristicFacts.

Implicit Types (R J : list str).

Lemma heuristic_suggestions_spec R J :
  heuristic_suggestions R J = heuristic_spec R J.
Proof.
  unfold heuristic_suggestions, heuristic_spec.
  set (missing := list_to_set J ∖ list_to_set R : gset str).
  assert (Hm : (if bool_decide (missing ≠ ∅)
                then [] ++ [MISSING_PREFIX ++ join (codes ", ") (sorted missing)]
                else [])
               = match sorted missing with
                 | [] => []
                 | _ => [MISSING_PREFIX ++ join (codes ", ") (sorted missing)]
                 end).
  { case_bool_decide as E.
    - destruct (sorted missing) eqn:Es; [|done].
      by apply sorted_nil_iff in Es.
    - by rewrite E, sorted_empty. }
  rewrite Hm. clear Hm.
  assert (Hb : bool_decide (codes "machine learning" ∈ J) || bool_decide (codes "nlp" ∈ J)
               = bool_decide (codes "machine learning" ∈ J ∨ codes "nlp" ∈ J)).
  { repeat case_bool_decide; simpl; try done; tauto. }
  rewrite Hb. clear Hb.
  destruct (bool_decide (_ ∨ _)); rewrite <- ?app_assoc; reflexivity.
Qed.

Lemma heuristic_suggestions_length R J :
  (2 ≤ length (heuristic_suggestions R J))%nat.
Proof. rewrite heuristic_suggestions_spec. unfold heuristic_spec. rewrite !length_app. simpl. lia. Qed.

Lemma elem_of_missing R J x :
  x ∈ sorted (list_to_set J ∖ list_to_set R) ↔ x ∈ J ∧ x ∉ R.
Proof.
  by rewrite elem_of_sorted, elem_of_difference, !elem_of_list_to_set.
Qed.

End HeuristicFacts.

(** ** The providers *)

Lemma gemini_clean_lines_foldl lines acc :
  foldl gemini_clean_step acc lines
  = acc ++ (strip_bullets <$> filter (λ l, l ≠ []) (strip <$> lines)).
Proof.
  revert acc. induction lines as [|line lines IH]; intros acc; csimpl.
  - by rewrite app_nil_r.
  - rewrite IH. unfold gemini_clean_step.
    destruct (strip line) as [|c l] eqn:E.
    + by rewrite filter_cons_False by (intros H; by apply H).
    + rewrite filter_cons_True by done. csimpl. by rewrite <- app_assoc.
Qed.

Lemma gemini_clean_lines_cleaned text : gemini_clean_lines text = cleaned_lines text.
Proof. apply (gemini_clean_lines_foldl _ []). Qed.

Lemma elem_of_cleaned_lines text x :
  x ∈ cleaned_lines text ↔
  ∃ line, line ∈ splitlines text ∧ strip line ≠ [] ∧ x = strip_bullets (strip line).
Proof.
  unfold cleaned_lines. rewrite list_elem_of_fmap. split.
  - intros (l & -> & [Hl (line & -> & Hline)%list_elem_of_fmap]%list_elem_of_filter).
    eauto.
  - intros (line & Hline & Hne & ->). exists (strip line). split; [done|].
    apply list_elem_of_filter. split; [done|]. apply list_elem_of_fmap. eauto.
Qed.

Section ProviderFacts.

Variable json_loads : str → option pyval.
Variable json_dumps : pyval → str.
Variable py_repr : pyval → str.
Variable W : World.

Local Abbreviation gemini := (call_gemini_suggestions json_loads json_dumps py_repr W).
Local Abbreviation openai := (call_openai_suggestions json_loads W).

Lemma gemini_result_shape text_out v :
  gemini_result json_loads py_repr text_out = Ok v → v = PNone ∨ ∃ l, v = PList l.
Proof.
  unfold gemini_result. destruct (loads json_loads text_out) as [parsed|].
  - destruct parsed; intros [= <-]; eauto.
  - destruct text_out; intros [= <-]; eauto.
Qed.

(** The line-split path of provider A: at most seven cleaned lines. *)
Lemma gemini_result_line_split s :
  json_loads s = None →
  gemini_result json_loads py_repr (PStr s)
  = Ok (PList (PStr <$> take 7 (cleaned_lines s))).
Proof.
  intros E. unfold gemini_result, loads. by rewrite E, gemini_clean_lines_cleaned.
Qed.

(** A decoded value that is no list makes provider A end without a
    [return]. *)
Lemma gemini_result_not_list s v :
  json_loads s = Some v → (∀ l, v ≠ PList l) →
  gemini_result json_loads py_repr (PStr s) = Ok PNone.
Proof.
  intros E Hv. unfold gemini_result, loads. rewrite E.
  destruct v; try done. by destruct (Hv l).
Qed.

Lemma call_gemini_value resume job :
  value (gemini resume job) = PNone ∨ ∃ l, value (gemini resume job) = PList l.
Proof.
  unfold call_gemini_suggestions.
  destruct (Py.env_or _ _) as [[|k ey]|]; simpl; eauto.
  destruct (requests_post W _ _) as [data|]; simpl; eauto.
  destruct (gemini_text_out _ _ data) as [text_out|]; simpl; eauto.
  destruct (gemini_result _ _ text_out) as [v|] eqn:E; simpl; eauto.
  by eapply gemini_result_shape.
Qed.

Lemma call_gemini_trace resume job :
  trace (gemini resume job) =
  CallGemini ::
    match Py.env_or (GOOGLE_API_KEY W) (GEMINI_API_KEY W) with
    | Some (k :: ey) =>
        [HttpPost (gemini_url (default (codes "text-bison-001") (GEMINI_MODEL W)) (k :: ey))
                  (gemini_prompt resume job)]
    | _ => []
    end.
Proof.
  unfold call_gemini_suggestions.
  by destruct (Py.env_or _ _) as [[|k ey]|].
Qed.

Lemma openai_result_shape text v :
  openai_result json_loads text = Ok v →
  ∃ l, v = PList l ∧
    (loads json_loads text = Ok (PList l) ∨ (length l ≤ 7)%nat).
Proof.
  unfold openai_result. destruct (loads json_loads text) as [data|] eqn:E; simpl; [|done].
  assert (Hlen : ∀ s : str, (length (PStr <$> take 7 (openai_clean_lines s)) ≤ 7)%nat).
  { intros s. rewrite length_fmap, length_take. lia. }
  destruct data; try (destruct text; intros [= <-]; eauto).
Qed.

Lemma call_openai_value resume job :
  ∃ l, value (openai resume job) = PList l.
Proof.
  unfold call_openai_suggestions.
  destruct (negb _ || negb _); simpl; eauto.
  destruct (chat_completion W _) as [text|]; simpl; eauto.
  destruct (openai_result _ text) as [v|] eqn:E; simpl; eauto.
  apply openai_result_shape in E as (l & -> & _). eauto.
Qed.

Lemma call_openai_trace resume job :
  trace (openai resume job) =
  CallOpenAI ::
    (if openai_configured W then [ChatCreate (openai_prompt resume job)] else []).
Proof.
  unfold call_openai_suggestions, openai_configured.
  by destruct (openai_imported W), (Py.env_truthy (OPENAI_API_KEY W)).
Qed.

End ProviderFacts.

Lemma trace_bind {A B} (m : io A) (f : A → io B) :
  trace (m ≫= f) = trace m ++ trace (f (value m)).
Proof. done. Qed.

Lemma value_bind {A B} (m : io A) (f : A → io B) :
  value (m ≫= f) = value (f (value m)).
Proof. done. Qed.

Section ChainFacts.

Variable unicode_lower : str → N → str → str.
Variable json_loads : str → option pyval.
Variable json_dumps : pyval → str.
Variable py_repr : pyval → str.
Variable W : World.

Local Abbreviation gemini := (call_gemini_suggestions json_loads json_dumps py_repr W).
Local Abbreviation openai := (call_openai_suggestions json_loads W).
Local Abbreviation analyze :=
  (analyze_resume_and_job unicode_lower json_loads json_dumps py_repr W).

Lemma analyze_chain resume_text job_description :
  let r := default [] resume_text in
  let j := default [] job_description in
  let sr := extract_skills unicode_lower r COMMON_SKILLS in
  let sj := extract_skills unicode_lower j COMMON_SKILLS in
  let A := if gemini_configured W then gemini r j else mret (PList []) in
  let B := if negb (Py.truthy (value A)) && openai_configured W
           then openai r j else mret (value A) in
  let H := if negb (Py.truthy (value B))
           then call_heuristic sr sj else mret (value B) in
  let out := analyze resume_text job_description in
  trace out = trace A ++ trace B ++ trace H ∧
  suggestions (value out) = value H ∧
  skills_resume (value out) = sr ∧
  skills_job (value out) = sj ∧
  match_score (value out) = compute_match sr sj.
Proof.
  intros r j sr sj A B H out.
  subst out. unfold analyze_resume_and_job.
  fold r j sr sj. fold (gemini_configured W). fold A.
  rewrite !trace_bind, !value_bind, <- andb_assoc.
  fold (openai_configured W). fold B. fold H.
  simpl. by rewrite app_nil_r.
Qed.

Lemma gemini_trace_events resume job e :
  e ∈ trace (gemini resume job) → e = CallGemini ∨ ∃ u p, e = HttpPost u p.
Proof.
  rewrite call_gemini_trace. intros [->|He]%elem_of_cons; [by left|].
  destruct (Py.env_or _ _) as [[|k ey]|]; try by apply elem_of_nil in He.
  apply list_elem_of_singleton in He. eauto.
Qed.

Lemma openai_trace_events resume job e :
  e ∈ trace (openai resume job) → e = CallOpenAI ∨ ∃ p, e = ChatCreate p.
Proof.
  rewrite call_openai_trace. intros [->|He]%elem_of_cons; [by left|].
  destruct (openai_configured W); [|by apply elem_of_nil in He].
  apply list_elem_of_singleton in He. eauto.
Qed.

Lemma stage_gemini_events (c : bool) resume job v e :
  e ∈ trace (if c then gemini resume job else mret v) →
  c = true ∧ (e = CallGemini ∨ ∃ u p, e = HttpPost u p).
Proof.
  destruct c; [|by intros ?%elem_of_nil].
  intros H. split; [done|]. by eapply gemini_trace_events.
Qed.

Lemma stage_openai_events (c : bool) resume job v e :
  e ∈ trace (if c then openai resume job else mret v) →
  c = true ∧ (e = CallOpenAI ∨ ∃ p, e = ChatCreate p).
Proof.
  destruct c; [|by intros ?%elem_of_nil].
  intros H. split; [done|]. by eapply openai_trace_events.
Qed.

Lemma stage_heuristic_events (c : bool) sr sj v e :
  e ∈ trace (if c then call_heuristic sr sj else mret v) →
  c = true ∧ e = CallHeuristic.
Proof.
  destruct c; [|by intros ?%elem_of_nil].
  by intros ->%list_elem_of_singleton.
Qed.

Section Run.

Variables resume_text job_description : option str.

Local Abbreviation r := (default [] resume_text).
Local Abbreviation j := (default [] job_description).
Local Abbreviation out := (analyze resume_text job_description).

Lemma truthy_list v :
  (v = PNone ∨ ∃ l, v = PList l) → Py.truthy v = true →
  ∃ x l, v = PList (x :: l).
Proof. intros [-> | [[|x l] ->]]; try done. eauto. Qed.

Lemma stage_gemini_value :
  let A := if gemini_configured W then gemini r j else mret (PList []) in
  value A = PNone ∨ ∃ l, value A = PList l.
Proof.
  simpl. destruct (gemini_configured W); [apply call_gemini_value | eauto].
Qed.

(** Provider A runs only when its credential is configured. *)
Lemma gemini_only_if_configured :
  CallGemini ∈ trace out → gemini_configured W = true.
Proof.
  destruct (analyze_chain resume_text job_description) as (-> & _).
  cbv zeta.
  intros [HA | [HB | HH]%elem_of_app]%elem_of_app.
  - by apply stage_gemini_events in HA as [? _].
  - by apply stage_openai_events in HB as [_ [?|[? ?]]].
  - by apply stage_heuristic_events in HH as [_ ?].
Qed.

(** Provider B runs only when A yielded nothing and B is configured. *)
Lemma openai_only_if_needed :
  CallOpenAI ∈ trace out →
  (gemini_configured W = false ∨ Py.truthy (value (gemini r j)) = false)
  ∧ openai_configured W = true.
Proof.
  destruct (analyze_chain resume_text job_description) as (-> & _).
  cbv zeta.
  set (A := if gemini_configured W then gemini r j else mret (PList [])).
  destruct (negb (Py.truthy (value A)) && openai_configured W) eqn:Ec.
  - intros _. apply andb_true_iff in Ec as [Ea Eo]. split; [|done].
    subst A. destruct (gemini_configured W); [right|by left].
    by apply negb_true_iff.
  - intros [HA | [HB | HH]%elem_of_app]%elem_of_app; exfalso.
    + by apply stage_gemini_events in HA as [_ [?|(? & ? & ?)]].
    + by apply elem_of_nil in HB.
    + by apply stage_heuristic_events in HH as [_ ?].
Qed.

(** A non-empty answer of provider A is the result, and nothing else
    is called. *)
Lemma gemini_answer_wins x l :
  gemini_configured W = true → value (gemini r j) = PList (x :: l) →
  suggestions (value out) = PList (x :: l) ∧ trace out = trace (gemini r j).
Proof.
  intros Eg EA.
  destruct (analyze_chain resume_text job_description) as (-> & -> & _).
  rewrite Eg. cbv zeta. rewrite !EA. simpl.
  by rewrite app_nil_r.
Qed.

(** A non-empty answer of provider B, when B is called, is the result,
    and the heuristic is not called. *)
Lemma openai_answer_wins x l :
  CallOpenAI ∈ trace out → value (openai r j) = PList (x :: l) →
  suggestions (value out) = PList (x :: l) ∧ CallHeuristic ∉ trace out.
Proof.
  intros Hin EB. destruct (openai_only_if_needed Hin) as [Hg Ho].
  destruct (analyze_chain resume_text job_description) as (-> & -> & _).
  cbv zeta.
  set (A := if gemini_configured W then gemini r j else mret (PList [])).
  assert (Ha : Py.truthy (value A) = false).
  { subst A. destruct Hg as [-> | Hg]; [done|]. by destruct (gemini_configured W). }
  rewrite Ha, Ho. cbn [negb andb]. rewrite !EB.
  change (Py.truthy (PList (x :: l))) with true. cbn [negb].
  split; [done|]. change (trace (mret (PList (x :: l)))) with (@nil event).
  rewrite app_nil_r. intros [HA | HB]%elem_of_app.
  - by apply stage_gemini_events in HA as [_ [?|(? & ? & ?)]].
  - by apply openai_trace_events in HB as [?|(? & ?)].
Qed.

(** Whatever the providers do, the analysis has suggestions. *)
Lemma suggestions_never_empty :
  ∃ x l, suggestions (value out) = PList (x :: l).
Proof.
  destruct (analyze_chain resume_text job_description) as (_ & -> & _).
  cbv zeta.
  set (A := if gemini_configured W then gemini r j else mret (PList [])).
  set (B := if negb (Py.truthy (value A)) && openai_configured W
            then openai r j else mret (value A)).
  assert (HB : value B = PNone ∨ ∃ l, value B = PList l).
  { subst B. destruct (_ && _); [right; apply call_openai_value|].
    apply stage_gemini_value. }
  destruct (Py.truthy (value B)) eqn:Et; simpl.
  - by apply truthy_list.
  - pose proof (heuristic_suggestions_length
      (extract_skills unicode_lower r COMMON_SKILLS)
      (extract_skills unicode_lower j COMMON_SKILLS)) as Hl.
    destruct (heuristic_suggestions _ _) as [|s ss]; [simpl in Hl; lia|].
    csimpl. eauto.
Qed.

End Run.

End ChainFacts.

(** ** Words and the bound of the line-split paths *)

(** A word of letters, digits, [+], [#], [.] and [-] is normalised to its
    lower-case form. *)
Lemma normalize_text_word (unicode_lower : str → N → str → str) (w : str) :
  Forall (λ c, Char.allowed (Char.lower_ascii c) = true ∧ c ≠ Char.SPACE) w →
  normalize_text unicode_lower w = Char.lower_ascii <$> w.
Proof.
  intros Hw.
  assert (Hl : lower unicode_lower w = Char.lower_ascii <$> w).
  { apply lower_ascii_text. eapply Forall_impl; [exact Hw|].
    intros c [Hc _]. revert Hc. char_props. unfold Char.is_upper, Char.between.
    destruct ((65 <=? c)%N && (c <=? 90)%N) eqn:E; char_solve. }
  assert (Ha : Forall (λ c, Char.allowed c = true ∧ c ≠ Char.SPACE)
                 (Char.lower_ascii <$> w)).
  { apply Forall_fmap. eapply Forall_impl; [exact Hw|]. simpl.
    intros c [Hc Hs]. split; [done|]. revert Hs. clear.
    unfold Char.lower_ascii, Char.is_upper, Char.between, Char.SPACE.
    destruct ((65 <=? c)%N && (c <=? 90)%N) eqn:E; [|done].
    apply andb_true_iff in E as [E1%N.leb_le E2%N.leb_le]. lia. }
  assert (Hn : normal (Char.lower_ascii <$> w)).
  { assert (Hns : ∀ c, c ∈ Char.lower_ascii <$> w → Char.is_space c = false).
    { intros c Hc. eapply Forall_forall in Ha as [Ha1 Ha2]; [|exact Hc].
      destruct (Char.is_space c) eqn:E; [|done].
      by destruct Ha2; apply allowed_space. }
    repeat split.
    - eapply Forall_impl; [exact Ha|]. by intros c [? _].
    - intros i Hi _. apply list_elem_of_lookup_2 in Hi. by apply Hns in Hi.
    - intros c Hc. apply Hns. rewrite head_lookup in Hc.
      by eapply list_elem_of_lookup_2.
    - intros c [l' E]%last_Some. apply Hns. rewrite E.
      apply elem_of_app. right. left. }
  rewrite <- (normalize_text_fixed unicode_lower _ Hn).
  unfold normalize_text. rewrite Hl. f_equal. f_equal. f_equal.
  symmetry. apply lower_allowed. by destruct Hn.
Qed.

Lemma cleaned_lines_bound (s : str) :
  (length (take 7 (cleaned_lines s)) ≤ 7)%nat.
Proof. rewrite length_take. lia. Qed.

Lemma call_openai_value_bound (json_loads : str → option pyval) (W : World)
    (resume job : str) :
  ∃ l, value (call_openai_suggestions json_loads W resume job) = PList l ∧
    ((length l ≤ 7)%nat ∨
     ∃ text, chat_completion W (openai_prompt resume job) = Ok text ∧
             loads json_loads text = Ok (PList l)).
Proof.
  unfold call_openai_suggestions.
  destruct (negb _ || negb _); simpl.
  { exists []. split; [done|]. left. simpl. lia. }
  destruct (chat_completion W _) as [text|] eqn:Ec; simpl.
  - destruct (openai_result _ text) as [v|] eqn:E; simpl.
    + apply openai_result_shape in E as (l & -> & [E|E]); exists l; eauto.
    + exists []. split; [done|]. left. simpl. lia.
  - exists []. split; [done|]. left. simpl. lia.
Qed.

(** ** Words survive normalisation *)

Section WordFacts.

Implicit Types (w u a b : str).

Lemma collapse_ws_go_word_prefix f w b :
  w ≠ [] → Forall (λ c, Char.is_space c = false) w →
  collapse_ws_go f (w ++ b) = w ++ collapse_ws_go false b.
Proof.
  intros Hne Hw. revert f. induction Hw as [|c w Hc Hw IH]; [done|]. intros f.
  simpl. rewrite Hc. f_equal. destruct w as [|d w]; [done|]. by apply IH.
Qed.

Lemma collapse_ws_go_word f a w b :
  w ≠ [] → Forall (λ c, Char.is_space c = false) w →
  collapse_ws_go f (a ++ w ++ b)
  = collapse_ws_go f a ++ w ++ collapse_ws_go false b.
Proof.
  intros Hne Hw. revert f. induction a as [|d a IH]; intros f.
  - simpl. by apply collapse_ws_go_word_prefix.
  - simpl. destruct (Char.is_space d), f; simpl; by rewrite IH.
Qed.

Lemma occurs_in_drop_while w u :
  w ≠ [] → Forall (λ c, Char.is_space c = false) w →
  occurs_in w u → occurs_in w (drop_while Char.is_space u).
Proof.
  intros Hne Hw (a & b & ->). induction a as [|d a IH].
  - destruct Hw as [|c w Hc Hw]; [done|]. simpl. rewrite Hc. by exists [], b.
  - simpl. destruct (Char.is_space d); [done|]. by exists (d :: a), b.
Qed.

Lemma occurs_in_reverse w u : occurs_in w u → occurs_in (reverse w) (reverse u).
Proof.
  intros (a & b & ->). exists (reverse b), (reverse a).
  by rewrite !reverse_app, <- app_assoc.
Qed.

Lemma occurs_in_strip w u :
  w ≠ [] → Forall (λ c, Char.is_space c = false) w →
  occurs_in w u → occurs_in w (strip u).
Proof.
  intros Hne Hw H. unfold strip, strip_chars.
  rewrite <- (reverse_involutive w). apply occurs_in_reverse.
  apply occurs_in_drop_while.
  - intros E. apply Hne. by rewrite <- (reverse_involutive w), E.
  - by apply Forall_reverse.
  - by apply occurs_in_reverse, occurs_in_drop_while.
Qed.

Lemma word_lower_ascii c :
  Char.kept (Char.lower_ascii c) = true →
  Char.is_space (Char.lower_ascii c) = false →
  Char.is_ascii c = true.
Proof.
  intros Hk Hs.
  pose proof (allowed_ascii _ (kept_not_space_allowed _ Hk Hs)) as H.
  revert H. unfold Char.lower_ascii, Char.is_upper, Char.between.
  destruct ((65 <=? c)%N && (c <=? 90)%N) eqn:E; [|done].
  intros _. apply andb_true_iff in E as [_ E%N.leb_le].
  unfold Char.is_ascii. apply N.ltb_lt. lia.
Qed.

(** In any text, a word whose lower-cased characters are kept by the
    normaliser and are no white space occurs, lower-cased, in the
    normalised text. *)
Lemma normalize_text_keeps_word (unicode_lower : str → N → str → str) (text w : str) :
  w ≠ [] →
  Forall (λ c, Char.kept (Char.lower_ascii c) = true
               ∧ Char.is_space (Char.lower_ascii c) = false) w →
  occurs_in w text →
  occurs_in (Char.lower_ascii <$> w) (normalize_text unicode_lower text).
Proof.
  intros Hne Hw (a & b & ->).
  assert (Hascii : Forall (λ c, Char.is_ascii c = true) w).
  { eapply Forall_impl; [exact Hw|]. intros c [? ?]. by apply word_lower_ascii. }
  assert (Hns : Forall (λ c, Char.is_space c = false) (Char.lower_ascii <$> w)).
  { apply Forall_fmap. eapply Forall_impl; [exact Hw|]. by intros c [_ ?]. }
  assert (Hk : blank_disallowed (Char.lower_ascii <$> w) = Char.lower_ascii <$> w).
  { unfold blank_disallowed. clear Hns Hascii Hne.
    induction Hw as [|c w [Hc _] _ IH]; csimpl; [done|]. by rewrite Hc, IH. }
  assert (Hne' : Char.lower_ascii <$> w ≠ []) by (by destruct w).
  unfold normalize_text, lower.
  destruct (lower_from_infix unicode_lower [] a w b Hascii) as [a' ->].
  apply occurs_in_strip; [done..|].
  unfold blank_disallowed at 1. rewrite !fmap_app.
  fold (blank_disallowed (Char.lower_ascii <$> w)). rewrite Hk.
  unfold collapse_ws. rewrite collapse_ws_go_word by done.
  by eexists _, _.
Qed.

End WordFacts.

(** ** More on [compute_match] *)

Section MatchBounds.

Implicit Types (R J : list str).

Lemma size_matched_le R J :
  (size (list_to_set R ∩ list_to_set J : gset str)
   ≤ size (list_to_set J : gset str))%nat.
Proof. apply subseteq_size. apply intersection_subseteq_r. Qed.

Lemma compute_match_bounds R J :
  (0 <= compute_match R J)%Q ∧ (compute_match R J <= 100)%Q.
Proof.
  destruct J as [|x J]; [done|]. rewrite compute_match_unfold by done.
  pose proof (size_matched_le R (x :: J)) as Hm.
  pose proof (size_job_pos (x :: J) ltac:(done)) as Hn.
  set (m := size (list_to_set R ∩ list_to_set (x :: J) : gset str)) in *.
  set (n := size (list_to_set (x :: J) : gset str)) in *.
  assert (HN : (0 < inject_Z (Z.of_nat n))%Q) by (rewrite <- (Zlt_Qlt 0); lia).
  assert (H0 : (0 <= true_divide (Z.of_nat m) (Z.of_nat n))%Q).
  { rewrite <- fl_0. apply fl_mono. apply Qle_shift_div_l; [done|].
    rewrite Qmult_0_l, <- (Zle_Qle 0). lia. }
  assert (H1 : (true_divide (Z.of_nat m) (Z.of_nat n) <= 1)%Q).
  { rewrite <- fl_1. apply fl_mono. apply Qle_shift_div_r; [done|].
    rewrite Qmult_1_l, <- Zle_Qle. lia. }
  set (q := true_divide _ _) in *. clearbody q. unfold float_mul. split.
  - apply Qle_trans with (round2 (fl 0)).
    + rewrite fl_0, round2_0. apply Qle_refl.
    + apply round2_mono, fl_mono. lra.
  - apply Qle_trans with (round2 (fl 100)).
    + apply round2_mono, fl_mono. lra.
    + rewrite fl_100, round2_100. apply Qle_refl.
Qed.

Lemma compute_match_full R J :
  J ≠ [] → (∀ x, x ∈ J → x ∈ R) → compute_match R J = 100%Q.
Proof.
  intros Hne Hsub. rewrite compute_match_unfold by done.
  assert (E : (list_to_set R ∩ list_to_set J : gset str) = list_to_set J).
  { apply set_eq. intros y. rewrite elem_of_intersection, !elem_of_list_to_set.
    split; [by intros [_ ?]|]. intros Hy. split; [by apply Hsub|done]. }
  rewrite E. pose proof (size_job_pos J Hne) as Hn.
  assert (HN : (0 < inject_Z (Z.of_nat (size (list_to_set J : gset str))))%Q)
    by (rewrite <- (Zlt_Qlt 0); lia).
  unfold true_divide, float_mul.
  set (n := inject_Z (Z.of_nat (size _))) in *.
  rewrite (fl_comp (n / n) 1) by (field; lra).
  rewrite fl_1, (fl_comp (1 * 100) 100) by reflexivity.
  rewrite fl_100. apply round2_100.
Qed.

Lemma compute_match_sets R R' J J' :
  (∀ x, x ∈ R ↔ x ∈ R') → (∀ x, x ∈ J ↔ x ∈ J') →
  compute_match R J = compute_match R' J'.
Proof.
  intros HR HJ.
  assert (ER : (list_to_set R : gset str) = list_to_set R').
  { apply set_eq. intros x. by rewrite !elem_of_list_to_set. }
  assert (EJ : (list_to_set J : gset str) = list_to_set J').
  { apply set_eq. intros x. by rewrite !elem_of_list_to_set. }
  unfold compute_match. rewrite ER, EJ.
  destruct J as [|x J], J' as [|x' J']; try done.
  - exfalso. apply (elem_of_nil (A:=str) x'). apply HJ. left.
  - exfalso. apply (elem_of_nil (A:=str) x). apply HJ. left.
Qed.

End MatchBounds.

(** ** More on [extract_skills] *)

Section ExtractMore.

Variable unicode_lower : str → N → str → str.

Local Abbreviation extract := (extract_skills unicode_lower).
Local Abbreviation normalize := (normalize_text unicode_lower).

(** Two results with the same members are the same list. *)
Lemma extract_skills_ext (text text' : str) (T T' : list str) :
  (∀ x, x ∈ extract text T ↔ x ∈ extract text' T') →
  extract text T = extract text' T'.
Proof.
  intros H. unfold extract_skills in *. f_equal. apply set_eq. intros x.
  specialize (H x). by rewrite !elem_of_sorted in H.
Qed.

Lemma occurs_in_trans (x y z : str) : occurs_in x y → occurs_in y z → occurs_in x z.
Proof.
  intros (a & b & ->) (c & d & ->). exists (c ++ a), (b ++ d).
  by rewrite <- !app_assoc.
Qed.

Lemma occurs_in_Forall (P : N → Prop) (x y : str) :
  occurs_in x y → Forall P y → Forall P x.
Proof. intros (a & b & ->) H. by apply Forall_app in H as [_ [H _]%Forall_app]. Qed.

Lemma token_char_lower_allowed c :
  Char.token_char c = true → Char.allowed (Char.lower_ascii c) = true.
Proof.
  intros H. unfold Char.lower_ascii.
  destruct (Char.is_upper c) eqn:E; revert H E; char_solve.
Qed.

Lemma token_char_lower_kept c :
  Char.token_char c = true →
  Char.kept (Char.lower_ascii c) = true ∧ Char.is_space (Char.lower_ascii c) = false.
Proof.
  intros H. unfold Char.lower_ascii.
  destruct (Char.is_upper c) eqn:E; split; revert H E; char_solve.
Qed.

(** Every character of a detected skill is one of a-z, 0-9, space, [+],
    [#], [.], [-]. *)
Lemma extract_skills_allowed (text : str) (T : list str) (x : str) :
  x ∈ extract text T → Forall (λ c, Char.allowed c = true) x.
Proof.
  intros [_ [H | (tok & Hr & <-)]]%elem_of_extract_skills.
  - eapply occurs_in_Forall; [exact H|].
    by destruct (normalize_text_normal unicode_lower text).
  - rewrite (lower_token _ _ _ Hr). destruct Hr as (_ & _ & _ & Ht & _).
    apply Forall_fmap. eapply Forall_impl; [exact Ht|].
    apply token_char_lower_allowed.
Qed.

Lemma token_run_occurs (text tok : str) : token_run text tok → occurs_in tok text.
Proof. intros (a & b & -> & _). by exists a, b. Qed.

(** On an ASCII text the token pass finds nothing that the substring pass
    does not find. *)
Lemma token_pass_in_substring_pass (text tok : str) :
  Forall (λ c, Char.is_ascii c = true) text →
  token_run text tok →
  occurs_in (lower unicode_lower tok) (normalize text).
Proof.
  intros Hascii Hr. rewrite (lower_token _ _ _ Hr).
  apply normalize_text_keeps_word; try done.
  - destruct Hr as (_ & _ & _ & _ & Hl & _). intros ->. simpl in Hl. lia.
  - destruct Hr as (_ & _ & _ & Ht & _).
    eapply Forall_impl; [exact Ht|]. apply token_char_lower_kept.
  - by apply token_run_occurs.
Qed.

Lemma elem_of_extract_skills_ascii (text : str) (T : list str) (x : str) :
  Forall (λ c, Char.is_ascii c = true) text →
  x ∈ extract text T ↔ x ∈ T ∧ occurs_in x (normalize text).
Proof.
  intros Hascii. rewrite elem_of_extract_skills. split.
  - intros [HT [H | (tok & Hr & <-)]]; (split; [done|]); [done|].
    by apply token_pass_in_substring_pass.
  - intros [HT H]. split; [done|]. by left.
Qed.

Lemma lower_ascii_idemp c : Char.lower_ascii (Char.lower_ascii c) = Char.lower_ascii c.
Proof.
  unfold Char.lower_ascii. destruct (Char.is_upper c) eqn:E; [|by rewrite E].
  assert (Char.is_upper (c + 32) = false) as -> by (revert E; char_solve). done.
Qed.

Lemma lower_ascii_is_ascii c :
  Char.is_ascii c = true → Char.is_ascii (Char.lower_ascii c) = true.
Proof.
  unfold Char.lower_ascii. destruct (Char.is_upper c) eqn:E; [|done].
  revert E. char_solve.
Qed.

Lemma normalize_text_lower_ascii (text : str) :
  Forall (λ c, Char.is_ascii c = true) text →
  normalize (Char.lower_ascii <$> text) = normalize text.
Proof.
  intros Hascii. unfold normalize_text.
  rewrite (lower_ascii_text _ _ Hascii), lower_ascii_text.
  - rewrite <- list_fmap_compose. f_equal. f_equal. f_equal.
    apply list_fmap_ext. intros _ c _. apply lower_ascii_idemp.
  - apply Forall_fmap. eapply Forall_impl; [exact Hascii|]. apply lower_ascii_is_ascii.
Qed.

End ExtractMore.

(** ** More on the providers and the chain *)

Section ProviderMore.

Variable unicode_lower : str → N → str → str.
Variable json_loads : str → option pyval.
Variable json_dumps : pyval → str.
Variable py_repr : pyval → str.
Variable W : World.

Local Abbreviation gemini := (call_gemini_suggestions json_loads json_dumps py_repr W).
Local Abbreviation openai := (call_openai_suggestions json_loads W).
Local Abbreviation analyze :=
  (analyze_resume_and_job unicode_lower json_loads json_dumps py_repr W).

Lemma gemini_result_strings text_out v :
  gemini_result json_loads py_repr text_out = Ok v →
  v = PNone ∨ ∃ l : list str, v = PList (PStr <$> l).
Proof.
  unfold gemini_result. destruct (loads json_loads text_out) as [parsed|].
  - destruct parsed; intros [= <-]; eauto.
    right. exists (py_str py_repr <$> l). by rewrite <- list_fmap_compose.
  - destruct text_out; intros [= <-]; eauto.
Qed.

Lemma call_gemini_strings resume job :
  value (gemini resume job) = PNone ∨
  ∃ l : list str, value (gemini resume job) = PList (PStr <$> l).
Proof.
  unfold call_gemini_suggestions.
  destruct (Py.env_or _ _) as [[|k ey]|]; simpl; try (right; by exists []).
  destruct (requests_post W _ _) as [data|]; simpl; try (right; by exists []).
  destruct (gemini_text_out _ _ data) as [text_out|]; simpl; try (right; by exists []).
  destruct (gemini_result _ _ text_out) as [v|] eqn:E; simpl; try (right; by exists []).
  by eapply gemini_result_strings.
Qed.

Lemma call_gemini_trace_configured resume job :
  gemini_configured W = true →
  trace (gemini resume job)
  = [CallGemini; HttpPost (gemini_request_url W) (gemini_prompt resume job)].
Proof.
  intros Hg. rewrite call_gemini_trace. unfold gemini_configured, gemini_request_url in *.
  by destruct (Py.env_or _ _) as [[|k ey]|].
Qed.

(** A failing request leaves provider A with the empty list. *)
Lemma call_gemini_failure resume job :
  (∀ url prompt, requests_post W url prompt = Raise) →
  value (gemini resume job) = PList [].
Proof.
  intros Hp. unfold call_gemini_suggestions.
  destruct (Py.env_or _ _) as [[|k ey]|]; try done.
  rewrite !value_bind, Hp. done.
Qed.

Lemma call_openai_failure resume job :
  (∀ prompt, chat_completion W prompt = Raise) →
  value (openai resume job) = PList [].
Proof.
  intros Hp. unfold call_openai_suggestions.
  destruct (negb _ || negb _); [done|]. rewrite !value_bind, Hp. done.
Qed.

(** A reply of provider B that is no JSON gives the empty list: the
    line split of line 190 is reached only after a successful decoding. *)
Lemma call_openai_not_json resume job text :
  chat_completion W (openai_prompt resume job) = Ok text →
  loads json_loads text = Raise →
  value (openai resume job) = PList [].
Proof.
  intros Hc Hl. unfold call_openai_suggestions.
  destruct (negb _ || negb _); [done|].
  rewrite !value_bind, Hc. cbn [mbind res_bind]. unfold openai_result.
  rewrite Hl. done.
Qed.

(** The text-bison shape: the generated text is [candidates[0].output]. *)
Lemma gemini_text_out_candidate (d c0 : list (str * pyval)) (rest : list pyval) (s : str) :
  Py.lookup d (codes "candidates") = Some (PList (PDict c0 :: rest)) →
  Py.lookup c0 (codes "output") = Some (PStr s) → s ≠ [] →
  gemini_text_out json_dumps py_repr (PDict d) = Ok (PStr s).
Proof.
  intros Hd Hc Hs. unfold gemini_text_out. rewrite Hd. cbn [Py.get mbind res_bind].
  unfold Py.dict_get. rewrite Hc. cbn [default from_option id].
  assert (Ht : Py.truthy (PStr s) = true).
  { simpl. by rewrite bool_decide_eq_false_2. }
  repeat (rewrite Ht; cbn [mbind res_bind negb]). done.
Qed.

Lemma call_gemini_candidate_lines resume job d c0 rest s :
  gemini_configured W = true →
  (∀ url prompt, requests_post W url prompt = Ok (PDict d)) →
  Py.lookup d (codes "candidates") = Some (PList (PDict c0 :: rest)) →
  Py.lookup c0 (codes "output") = Some (PStr s) → s ≠ [] →
  json_loads s = None →
  value (gemini resume job) = PList (PStr <$> take 7 (cleaned_lines s)).
Proof.
  intros Hg Hp Hd Hc Hs Hl. unfold call_gemini_suggestions, gemini_configured in *.
  destruct (Py.env_or _ _) as [[|k ey]|]; try done.
  rewrite !value_bind, Hp. cbn [mbind res_bind].
  rewrite (gemini_text_out_candidate d c0 rest s Hd Hc Hs). cbn [mbind res_bind].
  by rewrite gemini_result_line_split.
Qed.

Lemma call_gemini_candidate_array resume job d c0 rest s xs :
  gemini_configured W = true →
  (∀ url prompt, requests_post W url prompt = Ok (PDict d)) →
  Py.lookup d (codes "candidates") = Some (PList (PDict c0 :: rest)) →
  Py.lookup c0 (codes "output") = Some (PStr s) → s ≠ [] →
  json_loads s = Some (PList xs) →
  value (gemini resume job) = PList (PStr <$> (py_str py_repr <$> xs)).
Proof.
  intros Hg Hp Hd Hc Hs Hl. unfold call_gemini_suggestions, gemini_configured in *.
  destruct (Py.env_or _ _) as [[|k ey]|]; try done.
  rewrite !value_bind, Hp. cbn [mbind res_bind].
  rewrite (gemini_text_out_candidate d c0 rest s Hd Hc Hs). cbn [mbind res_bind].
  unfold gemini_result, loads. rewrite Hl. cbn [try_except mret io_ret value].
  by rewrite <- list_fmap_compose.
Qed.

Lemma call_gemini_candidate_other resume job d c0 rest s v :
  gemini_configured W = true →
  (∀ url prompt, requests_post W url prompt = Ok (PDict d)) →
  Py.lookup d (codes "candidates") = Some (PList (PDict c0 :: rest)) →
  Py.lookup c0 (codes "output") = Some (PStr s) → s ≠ [] →
  json_loads s = Some v → (∀ l, v ≠ PList l) →
  value (gemini resume job) = PNone.
Proof.
  intros Hg Hp Hd Hc Hs Hl Hv. unfold call_gemini_suggestions, gemini_configured in *.
  destruct (Py.env_or _ _) as [[|k ey]|]; try done.
  rewrite !value_bind, Hp. cbn [mbind res_bind].
  rewrite (gemini_text_out_candidate d c0 rest s Hd Hc Hs). cbn [mbind res_bind].
  by rewrite (gemini_result_not_list _ _ s v Hl Hv).
Qed.

End ProviderMore.

Section ChainMore.

Variable unicode_lower : str → N → str → str.
Variable json_loads : str → option pyval.
Variable json_dumps : pyval → str.
Variable py_repr : pyval → str.
Variable W : World.

Local Abbreviation gemini := (call_gemini_suggestions json_loads json_dumps py_repr W).
Local Abbreviation openai := (call_openai_suggestions json_loads W).
Local Abbreviation analyze :=
  (analyze_resume_and_job unicode_lower json_loads json_dumps py_repr W).

Variables resume_text job_description : option str.

Local Abbreviation r := (default [] resume_text).
Local Abbreviation j := (default [] job_description).
Local Abbreviation sr := (extract_skills unicode_lower r COMMON_SKILLS).
Local Abbreviation sj := (extract_skills unicode_lower j COMMON_SKILLS).
Local Abbreviation out := (analyze resume_text job_description).

(** The events of a run, in full. *)
Lemma analyze_trace_exact :
  let A := if gemini_configured W then gemini r j else mret (PList []) in
  let B := if negb (Py.truthy (value A)) && openai_configured W
           then openai r j else mret (value A) in
  trace out =
    (if gemini_configured W
     then [CallGemini; HttpPost (gemini_request_url W) (gemini_prompt r j)]
     else [])
    ++ (if negb (Py.truthy (value A)) && openai_configured W
        then [CallOpenAI; ChatCreate (openai_prompt r j)] else [])
    ++ (if negb (Py.truthy (value B)) then [CallHeuristic] else []).
Proof.
  intros A B. destruct (analyze_chain unicode_lower json_loads json_dumps py_repr W
                          resume_text job_description) as (-> & _).
  cbv zeta. fold A. fold B. f_equal; [|f_equal].
  - subst A. destruct (gemini_configured W) eqn:Eg; [|done].
    by apply call_gemini_trace_configured.
  - subst B. destruct (negb (Py.truthy (value A)) && openai_configured W) eqn:Ec; [|done].
    apply andb_true_iff in Ec as [_ Eo].
    by rewrite call_openai_trace, Eo.
  - by destruct (negb (Py.truthy (value B))).
Qed.

Lemma analyze_trace_sublist :
  trace out `sublist_of`
    [CallGemini; HttpPost (gemini_request_url W) (gemini_prompt r j);
     CallOpenAI; ChatCreate (openai_prompt r j); CallHeuristic].
Proof.
  rewrite analyze_trace_exact.
  destruct (gemini_configured W), (negb _ && openai_configured W), (negb _);
    simpl; repeat first [apply sublist_nil | apply sublist_skip | apply sublist_cons].
Qed.

Lemma analyze_offline :
  gemini_configured W = false → openai_configured W = false →
  trace out = [CallHeuristic] ∧
  suggestions (value out) = PList (PStr <$> heuristic_suggestions sr sj).
Proof.
  intros Hg Ho. split.
  - rewrite analyze_trace_exact, Hg, Ho. by rewrite andb_false_r.
  - destruct (analyze_chain unicode_lower json_loads json_dumps py_repr W
                resume_text job_description) as (_ & -> & _).
    cbv zeta. rewrite Hg, Ho. by rewrite andb_false_r.
Qed.

Lemma analyze_degraded :
  (∀ url prompt, requests_post W url prompt = Raise) →
  (∀ prompt, chat_completion W prompt = Raise) →
  suggestions (value out) = PList (PStr <$> heuristic_suggestions sr sj).
Proof.
  intros Hp Hc.
  destruct (analyze_chain unicode_lower json_loads json_dumps py_repr W
              resume_text job_description) as (_ & -> & _).
  cbv zeta.
  assert (HA : value (if gemini_configured W then gemini r j else mret (PList []))
               = PList []).
  { destruct (gemini_configured W); [by apply call_gemini_failure | done]. }
  rewrite HA. change (Py.truthy (PList [])) with false. cbn [negb andb].
  assert (HB : value (if openai_configured W then openai r j else mret (PList []))
               = PList []).
  { destruct (openai_configured W); [by apply call_openai_failure | done]. }
  rewrite HB. done.
Qed.

End ChainMore.

(** ** The prompts and the cleaned lines *)

Ltac eval_lengths :=
  repeat match goal with
    | |- context [length (codes ?s)] =>
        let n := eval vm_compute in (length (codes s)) in
        change (length (codes s)) with n
    end;
  change (length NL) with 1%nat; change (length DQ) with 1%nat;
  change (length FENCE) with 3%nat.

Lemma gemini_prompt_length (resume job : str) :
  length (gemini_prompt resume job)
  = (347 + (length resume `min` 4000) + (length job `min` 4000))%nat.
Proof.
  unfold gemini_prompt. rewrite !length_app, !length_take. eval_lengths. lia.
Qed.

Lemma openai_prompt_length (resume job : str) :
  length (openai_prompt resume job)
  = (300 + (length resume `min` 4000) + (length job `min` 4000))%nat.
Proof.
  unfold openai_prompt. rewrite !length_app, !length_take. eval_lengths. lia.
Qed.

Lemma gemini_prompt_take (resume job : str) :
  gemini_prompt resume job = gemini_prompt (take 4000 resume) (take 4000 job).
Proof. unfold gemini_prompt. by rewrite !take_take, !Nat.min_id. Qed.

Lemma openai_prompt_take (resume job : str) :
  openai_prompt resume job = openai_prompt (take 4000 resume) (take 4000 job).
Proof. unfold openai_prompt. by rewrite !take_take, !Nat.min_id. Qed.

Section LineFacts.

Implicit Types (s cur line : str).

Lemma Forall_drop_while (P : N → Prop) (p : N → bool) s :
  Forall P s → Forall P (drop_while p s).
Proof.
  intros H. rewrite <- (take_drop_while p s) in H. by apply Forall_app in H as [_ ?].
Qed.

(** At a line boundary: CR LF is consumed as one. *)
Lemma splitlines_go_break c r cur :
  Char.is_linebreak c = true →
  splitlines_go cur (c :: r)
  = reverse cur ::
      (if bool_decide (c = 13%N ∧ head r = Some 10%N)
       then splitlines_go [] (tail r) else splitlines_go [] r).
Proof.
  intros Ec. cbn [splitlines_go]. rewrite Ec. f_equal.
  case_bool_decide as E.
  - destruct E as [-> E]. destruct r as [|d r]; [done|]. simpl in E. by simplify_eq.
  - destruct c as [|p]; [done|].
    do 4 (destruct p as [p|p|]; try done).
    destruct r as [|d r]; [done|]. destruct d as [|q]; [done|].
    do 4 (destruct q as [q|q|]; try done).
    by destruct E.
Qed.

Lemma splitlines_go_no_break n s cur line :
  (length s ≤ n)%nat →
  Forall (λ c, Char.is_linebreak c = false) cur →
  line ∈ splitlines_go cur s →
  Forall (λ c, Char.is_linebreak c = false) line.
Proof.
  revert s cur. induction n as [|n IH]; intros s cur Hn Hcur.
  - destruct s; [|simpl in Hn; lia]. simpl.
    destruct cur; [by intros ?%elem_of_nil|].
    intros ->%list_elem_of_singleton. by apply Forall_reverse.
  - destruct s as [|c r].
    { simpl. destruct cur; [by intros ?%elem_of_nil|].
      intros ->%list_elem_of_singleton. by apply Forall_reverse. }
    destruct (Char.is_linebreak c) eqn:Ec.
    + rewrite splitlines_go_break by done.
      intros [-> | Hin]%elem_of_cons; [by apply Forall_reverse|].
      case_bool_decide.
      * eapply (IH (tail r) []); [|constructor|done].
        destruct r; simpl in *; lia.
      * eapply (IH r []); [simpl in Hn; lia|constructor|done].
    + cbn [splitlines_go]. rewrite Ec.
      apply IH; [simpl in Hn; lia|]. by constructor.
Qed.

Lemma splitlines_no_break s line :
  line ∈ splitlines s → Forall (λ c, Char.is_linebreak c = false) line.
Proof. by apply (splitlines_go_no_break (length s)). Qed.

Lemma strip_bullets_spec line :
  strip_bullets line = line ∨
  strip_bullets line = drop_while Char.is_space (drop_while Char.is_bullet line).
Proof. unfold strip_bullets. destruct line as [|c l]; [by left|]. destruct (Char.is_bullet c); auto. Qed.

Lemma cleaned_line_shape s x :
  x ∈ cleaned_lines s →
  Forall (λ c, Char.is_linebreak c = false) x ∧
  (∀ c, head x = Some c → Char.is_space c = false) ∧
  (∀ c, last x = Some c → Char.is_space c = false).
Proof.
  intros (line & Hline & Hne & ->)%elem_of_cleaned_lines.
  assert (Hnb : Forall (λ c, Char.is_linebreak c = false) (strip line)).
  { destruct (strip_chars_infix Char.is_space line) as (a & b & E).
    pose proof (splitlines_no_break s line Hline) as H. rewrite E in H.
    by apply Forall_app in H as [_ [H _]%Forall_app]. }
  destruct (strip_bullets_spec (strip line)) as [-> | ->].
  - split_and!; [done | apply strip_chars_head | apply strip_chars_last].
  - split_and!.
    + by do 2 apply Forall_drop_while.
    + apply drop_while_head.
    + intros c Hc. do 2 apply drop_while_last in Hc. by eapply strip_chars_last.
Qed.

End LineFacts.

(** ** Files, endpoints and the frontend *)

Lemma ends_with_spec (s suffix : str) :
  ends_with s suffix = true ↔ ∃ pre, s = pre ++ suffix.
Proof.
  unfold ends_with. rewrite is_prefix_spec. split.
  - intros [post E]. exists (reverse post).
    by rewrite <- (reverse_involutive s), E, reverse_app, reverse_involutive.
  - intros [pre ->]. exists (reverse pre). by rewrite reverse_app.
Qed.

Lemma str_join_strings (sep : str) (pieces : list str) :
  Py.str_join sep (PStr <$> pieces) = Ok (join sep pieces).
Proof.
  unfold Py.str_join.
  assert (E : Py.strings (PStr <$> pieces) = Ok pieces).
  { induction pieces as [|p ps IH]; csimpl; [done|]. by rewrite IH. }
  by rewrite E.
Qed.

Lemma str_join_ok (sep : str) (pieces : list pyval) (text : str) :
  Py.str_join sep pieces = Ok text →
  ∃ ss : list str, pieces = PStr <$> ss ∧ text = join sep ss.
Proof.
  unfold Py.str_join. destruct (Py.strings pieces) as [ss|] eqn:E; [|done].
  intros [= <-]. exists ss. split; [|done].
  revert ss E. induction pieces as [|p ps IH]; intros ss; simpl.
  - by intros [= <-].
  - destruct p; try done. destruct (Py.strings ps) as [ss'|]; [|done].
    intros [= <-]. csimpl. by rewrite <- (IH ss').
Qed.

Section FileFacts.

Variable unicode_lower : str → N → str → str.
Variable decode_ignore : bytes → str.
Variable pdf_pages docx_paragraphs : bytes → res (list pyval).

Local Abbreviation extract_text :=
  (extract_text_from_file unicode_lower decode_ignore pdf_pages docx_paragraphs).

(** What the function returns, case by case. *)
Lemma extract_text_from_file_cases (filename : str) (raw : bytes) :
  let name := lower unicode_lower filename in
  extract_text filename raw = decode_ignore raw ∨
  (ends_with name (codes ".txt") = false ∧ ends_with name (codes ".pdf") = true ∧
   ∃ pages : list str,
     pdf_pages raw = Ok (PStr <$> pages) ∧
     extract_text filename raw = join NL pages) ∨
  (ends_with name (codes ".txt") = false ∧ ends_with name (codes ".pdf") = false ∧
   ends_with name (codes ".docx") = true ∧
   ∃ paragraphs : list str,
     docx_paragraphs raw = Ok (PStr <$> paragraphs) ∧
     extract_text filename raw = join NL paragraphs).
Proof.
  intros name. unfold extract_text_from_file. fold name.
  destruct (ends_with name (codes ".txt")); [by left|].
  destruct (ends_with name (codes ".pdf")).
  - destruct (pdf_pages raw) as [pages|] eqn:E; [|by left]. cbn [mbind res_bind].
    destruct (Py.str_join NL pages) as [text|] eqn:Ej; [|by left].
    apply str_join_ok in Ej as (ss & -> & ->). right. left.
    split_and!; try done. by exists ss.
  - destruct (ends_with name (codes ".docx")); [|by left].
    destruct (docx_paragraphs raw) as [ps|] eqn:E; [|by left]. cbn [mbind res_bind].
    destruct (Py.str_join NL ps) as [text|] eqn:Ej; [|by left].
    apply str_join_ok in Ej as (ss & -> & ->). right. right.
    split_and!; try done. by exists ss.
Qed.

(** A reader that raises, or a page without text, ends in the decoding
    of the raw bytes. *)
Lemma extract_text_from_file_fallback (filename : str) (raw : bytes) :
  (pdf_pages raw = Raise ∨
   ∃ pages, pdf_pages raw = Ok pages ∧ ¬ ∃ ss : list str, pages = PStr <$> ss) →
  (docx_paragraphs raw = Raise ∨
   ∃ ps, docx_paragraphs raw = Ok ps ∧ ¬ ∃ ss : list str, ps = PStr <$> ss) →
  extract_text filename raw = decode_ignore raw.
Proof.
  intros Hpdf Hdocx.
  destruct (extract_text_from_file_cases filename raw)
    as [E | [(_ & _ & pages & Hp & _) | (_ & _ & _ & ps & Hp & _)]]; [done|..].
  - destruct Hpdf as [Hr | (pages' & Hr & Hn)]; [congruence|].
    exfalso. apply Hn. exists pages. congruence.
  - destruct Hdocx as [Hr | (ps' & Hr & Hn)]; [congruence|].
    exfalso. apply Hn. exists ps. congruence.
Qed.

Lemma extract_text_from_file_plain (filename : str) (raw : bytes) :
  ends_with (lower unicode_lower filename) (codes ".pdf") = false →
  ends_with (lower unicode_lower filename) (codes ".docx") = false →
  extract_text filename raw = decode_ignore raw.
Proof.
  intros Hpdf Hdocx. unfold extract_text_from_file. rewrite Hpdf, Hdocx.
  by destruct (ends_with _ (codes ".txt")).
Qed.

Lemma extract_text_from_file_pdf (filename : str) (raw : bytes) (pages : list str) :
  ends_with (lower unicode_lower filename) (codes ".pdf") = true →
  pdf_pages raw = Ok (PStr <$> pages) →
  extract_text filename raw = join NL pages.
Proof.
  intros Hpdf Hp. unfold extract_text_from_file. rewrite Hpdf, Hp.
  assert (Ht : ends_with (lower unicode_lower filename) (codes ".txt") = false).
  { destruct (ends_with _ (codes ".txt")) eqn:E; [|done].
    apply ends_with_spec in E as [a Ea]. apply ends_with_spec in Hpdf as [b Eb].
    rewrite Ea in Eb. apply (f_equal reverse) in Eb.
    rewrite !reverse_app in Eb. vm_compute (reverse (codes _)) in Eb.
    by simplify_eq/=. }
  rewrite Ht. cbn [mbind res_bind]. by rewrite str_join_strings.
Qed.

Lemma ends_with_docx (name : str) :
  ends_with name (codes ".docx") = true →
  ends_with name (codes ".txt") = false ∧ ends_with name (codes ".pdf") = false.
Proof.
  intros [b Eb]%ends_with_spec. split.
  - destruct (ends_with name (codes ".txt")) eqn:E; [|done].
    apply ends_with_spec in E as [a Ea]. rewrite Ea in Eb.
    apply (f_equal reverse) in Eb. rewrite !reverse_app in Eb.
    vm_compute (reverse (codes _)) in Eb. by simplify_eq/=.
  - destruct (ends_with name (codes ".pdf")) eqn:E; [|done].
    apply ends_with_spec in E as [a Ea]. rewrite Ea in Eb.
    apply (f_equal reverse) in Eb. rewrite !reverse_app in Eb.
    vm_compute (reverse (codes _)) in Eb. by simplify_eq/=.
Qed.

Lemma extract_text_from_file_docx (filename : str) (raw : bytes)
    (paragraphs : list str) :
  ends_with (lower unicode_lower filename) (codes ".docx") = true →
  docx_paragraphs raw = Ok (PStr <$> paragraphs) →
  extract_text filename raw = join NL paragraphs.
Proof.
  intros Hdocx Hp. unfold extract_text_from_file.
  destruct (ends_with_docx _ Hdocx) as [-> ->]. rewrite Hdocx, Hp.
  cbn [mbind res_bind]. by rewrite str_join_strings.
Qed.

(** The pieces that a reader gives cannot be joined when one of them is
    no string. *)
Lemma str_join_not_strings (sep : str) (pieces : list pyval) :
  (¬ ∃ ss : list str, pieces = PStr <$> ss) → Py.str_join sep pieces = Raise.
Proof.
  intros H. destruct (Py.str_join sep pieces) as [text|] eqn:E; [|done].
  apply str_join_ok in E as (ss & -> & _). exfalso. apply H. by exists ss.
Qed.

Lemma extract_text_from_file_pdf_fallback (filename : str) (raw : bytes) :
  (pdf_pages raw = Raise ∨
   ∃ pages, pdf_pages raw = Ok pages ∧ ¬ ∃ ss : list str, pages = PStr <$> ss) →
  ends_with (lower unicode_lower filename) (codes ".pdf") = true →
  extract_text filename raw = decode_ignore raw.
Proof.
  intros H Hpdf. unfold extract_text_from_file. rewrite Hpdf.
  destruct (ends_with _ (codes ".txt")); [done|].
  destruct H as [-> | (pages & -> & Hn)]; [done|].
  cbn [mbind res_bind]. by rewrite str_join_not_strings.
Qed.

Lemma extract_text_from_file_docx_fallback (filename : str) (raw : bytes) :
  (docx_paragraphs raw = Raise ∨
   ∃ ps, docx_paragraphs raw = Ok ps ∧ ¬ ∃ ss : list str, ps = PStr <$> ss) →
  ends_with (lower unicode_lower filename) (codes ".docx") = true →
  extract_text filename raw = decode_ignore raw.
Proof.
  intros H Hdocx. unfold extract_text_from_file.
  destruct (ends_with_docx _ Hdocx) as [-> ->]. rewrite Hdocx.
  destruct H as [-> | (ps & -> & Hn)]; [done|].
  cbn [mbind res_bind]. by rewrite str_join_not_strings.
Qed.

End FileFacts.

(** ** Punctuation as separator, and growing texts *)

Section GrowFacts.

Variable unicode_lower : str → N → str → str.

Local Abbreviation normalize := (normalize_text unicode_lower).

Implicit Types (w u p q : str).

Lemma collapse_ws_go_app f p u :
  collapse_ws_go f (p ++ u)
  = collapse_ws_go f p ++ collapse_ws_go (flag_after f p) u.
Proof.
  revert f. induction p as [|c p IH]; intros f; [done|].
  assert (Hf : ∀ g, flag_after f (c :: p) = flag_after (Char.is_space c) p
                    ∧ flag_after g (c :: p) = flag_after f (c :: p)).
  { intros g. unfold flag_after. rewrite !last_cons. by destruct (last p). }
  destruct (Hf f) as [-> _]. simpl.
  destruct (Char.is_space c) eqn:Ec.
  - destruct f; rewrite IH; [done|]. by rewrite app_comm_cons.
  - by rewrite IH.
Qed.

Lemma collapse_ws_go_flag u :
  collapse_ws_go false u = collapse_ws_go true u ∨
  collapse_ws_go false u = Char.SPACE :: collapse_ws_go true u.
Proof. destruct u as [|c u]; [by left|]. simpl. destruct (Char.is_space c); auto. Qed.

Lemma strip_cons_space c u : Char.is_space c = true → strip (c :: u) = strip u.
Proof. intros Hc. unfold strip, strip_chars. simpl. by rewrite Hc. Qed.

Lemma strip_collapse_flag f u :
  strip (collapse_ws_go f u) = strip (collapse_ws_go false u).
Proof.
  destruct f; [|done].
  destruct (collapse_ws_go_flag u) as [-> | ->]; [done|].
  by rewrite strip_cons_space.
Qed.

(** An infix with no white space at its ends survives [strip]. *)
Lemma occurs_in_drop_while_head w u :
  (∃ c, head w = Some c ∧ Char.is_space c = false) →
  occurs_in w u → occurs_in w (drop_while Char.is_space u).
Proof.
  intros (c & Hh & Hc) (a & b & ->). induction a as [|d a IH].
  - destruct w as [|c' w]; simplify_eq/=. rewrite Hc. by exists [], b.
  - simpl. destruct (Char.is_space d); [done|]. by exists (d :: a), b.
Qed.

Lemma occurs_in_strip_ends w u :
  (∃ c, head w = Some c ∧ Char.is_space c = false) →
  (∃ c, last w = Some c ∧ Char.is_space c = false) →
  occurs_in w u → occurs_in w (strip u).
Proof.
  intros Hh Hl H. unfold strip, strip_chars.
  rewrite <- (reverse_involutive w). apply occurs_in_reverse.
  apply occurs_in_drop_while_head.
  - by rewrite head_reverse.
  - by apply occurs_in_reverse, occurs_in_drop_while_head.
Qed.

Lemma strip_occurs u : occurs_in (strip u) u.
Proof. destruct (strip_chars_infix Char.is_space u) as (a & b & E). by exists a, b. Qed.

Lemma strip_ends u :
  strip u = [] ∨
  (∃ c, head (strip u) = Some c ∧ Char.is_space c = false) ∧
  (∃ c, last (strip u) = Some c ∧ Char.is_space c = false).
Proof.
  destruct (strip u) as [|c s] eqn:E; [by left|]. right. rewrite <- E. split.
  - exists c. split; [by rewrite E|]. apply (strip_chars_head Char.is_space u).
    unfold strip in E. by rewrite E.
  - destruct (last (strip u)) as [d|] eqn:El.
    + exists d. split; [done|]. by apply (strip_chars_last Char.is_space u).
    + rewrite E in El. by apply last_None in El.
Qed.

(** The normal form of a part occurs in the normal form of the whole. *)
Lemma normalize_text_grow (pre text post : str) :
  Forall (λ c, Char.is_ascii c = true) (pre ++ text ++ post) →
  occurs_in (normalize text) (normalize (pre ++ text ++ post)).
Proof.
  intros Hall.
  assert (Htext : Forall (λ c, Char.is_ascii c = true) text).
  { by apply Forall_app in Hall as [_ [? _]%Forall_app]. }
  unfold normalize_text.
  rewrite (lower_ascii_text _ _ Hall), (lower_ascii_text _ _ Htext).
  unfold blank_disallowed, collapse_ws. rewrite !fmap_app.
  set (B := λ s : str, (λ c, if Char.kept c then c else Char.SPACE) <$> s).
  set (L := λ s : str, Char.lower_ascii <$> s).
  change (occurs_in (strip (collapse_ws_go false (B (L text))))
            (strip (collapse_ws_go false (B (L pre) ++ B (L text) ++ B (L post))))).
  rewrite !collapse_ws_go_app.
  set (f1 := flag_after false (B (L pre))).
  set (f2 := flag_after f1 (B (L text))).
  rewrite <- (strip_collapse_flag f1).
  destruct (strip_ends (collapse_ws_go f1 (B (L text)))) as [-> | [Hh Hl]].
  - by exists [], (strip (collapse_ws_go false (B (L pre)) ++
                        collapse_ws_go f1 (B (L text)) ++ collapse_ws_go f2 (B (L post)))).
  - apply occurs_in_strip_ends; [done..|].
    eapply occurs_in_trans; [apply strip_occurs|]. by eexists _, _.
Qed.

(** A character outside the kept class acts as a space. *)
Lemma normalize_text_separator (a b : str) (c : N) :
  Forall (λ c, Char.is_ascii c = true) (a ++ c :: b) →
  Char.kept (Char.lower_ascii c) = false →
  normalize (a ++ c :: b) = normalize (a ++ Char.SPACE :: b).
Proof.
  intros Hall Hc.
  assert (Hall' : Forall (λ c, Char.is_ascii c = true) (a ++ Char.SPACE :: b)).
  { apply Forall_app in Hall as [Ha [_ Hb]%Forall_cons].
    apply Forall_app. split; [done|]. by constructor. }
  unfold normalize_text.
  rewrite (lower_ascii_text _ _ Hall), (lower_ascii_text _ _ Hall').
  unfold blank_disallowed. rewrite !fmap_app, !fmap_cons. by rewrite Hc.
Qed.

End GrowFacts.

(** ** The words of the normalised text *)

Section WordsFacts.

Implicit Types (s u : str) (c : N).


Lemma strip_rstrip s : strip s = rstrip (drop_while Char.is_space s).
Proof. done. Qed.

Lemma drop_while_snoc p s c :
  drop_while p (s ++ [c])
  = match drop_while p s with
    | [] => if p c then [] else [c]
    | d => d ++ [c]
    end.
Proof.
  induction s as [|e s IH]; simpl; [done|].
  destruct (p e); [done|]. done.
Qed.

Lemma rstrip_cons c s :
  rstrip (c :: s)
  = match rstrip s with
    | [] => if Char.is_space c then [] else [c]
    | t => c :: t
    end.
Proof.
  unfold rstrip. rewrite reverse_cons, drop_while_snoc.
  destruct (drop_while Char.is_space (reverse s)) as [|e d] eqn:E.
  - simpl. by destruct (Char.is_space c).
  - rewrite reverse_app, reverse_singleton. simpl.
    destruct (reverse (e :: d)) as [|x t] eqn:E'; [|done].
    apply (f_equal reverse) in E'. rewrite reverse_involutive in E'. done.
Qed.

Lemma word_char_kept c : word_char c = true → Char.kept c = true ∧ Char.is_space c = false.
Proof. unfold word_char. intros [? ?%negb_true_iff]%andb_true_iff. done. Qed.

(** After blanking, a character is white space exactly when it is no
    word character. *)
Lemma collapse_blank_cons b c s :
  collapse_ws_go b (blank_disallowed (c :: s))
  = if word_char c then c :: collapse_ws_go false (blank_disallowed s)
    else if b then collapse_ws_go true (blank_disallowed s)
         else Char.SPACE :: collapse_ws_go true (blank_disallowed s).
Proof.
  unfold blank_disallowed, word_char. csimpl.
  destruct (Char.kept c) eqn:Ek; simpl.
  - destruct (Char.is_space c) eqn:Es; simpl; done.
  - done.
Qed.

Lemma words_nonempty s : Forall (λ w, w ≠ []) (words s).
Proof.
  induction s as [|c r IH]; simpl; [constructor|].
  destruct (word_char c); [|done].
  destruct r as [|d r']; [by repeat constructor|].
  destruct (word_char d).
  - destruct (words (d :: r')) as [|w ws]; [by repeat constructor|].
    inversion IH; subst. by constructor.
  - by constructor.
Qed.

Lemma join_cons_cons (sep : str) c w ws :
  join sep ((c :: w) :: ws) = c :: join sep (w :: ws).
Proof. by destruct ws. Qed.

Lemma join_nonempty (sep : str) w ws : w ≠ [] → join sep (w :: ws) ≠ [].
Proof. intros H. destruct w; [done|]. by destruct ws. Qed.

Lemma words_head_word c r : word_char c = true → words (c :: r) ≠ [].
Proof.
  intros H. simpl. rewrite H. destruct r as [|d r']; [done|].
  destruct (word_char d); [|done]. by destruct (words (d :: r')).
Qed.

Lemma rstrip_collapse_words s :
  rstrip (collapse_ws_go true (blank_disallowed s)) = join [Char.SPACE] (words s).
Proof.
  induction s as [|c r IH]; [done|].
  rewrite collapse_blank_cons. destruct (word_char c) eqn:Ec.
  - destruct (word_char_kept c Ec) as [_ Hs].
    rewrite rstrip_cons, Hs.
    destruct r as [|d r'].
    + simpl. by rewrite Ec.
    + rewrite collapse_blank_cons in IH |- *. 
      change (words (c :: d :: r')) with
        (if word_char c then
           if word_char d then
             match words (d :: r') with w :: ws => (c :: w) :: ws | [] => [[c]] end
           else [c] :: words (d :: r')
         else words (d :: r')).
      rewrite Ec. destruct (word_char d) eqn:Ed.
      * rewrite IH. pose proof (words_head_word d r' Ed) as Hne.
        pose proof (words_nonempty (d :: r')) as Hw.
        destruct (words (d :: r')) as [|w ws]; [done|].
        inversion Hw; subst. rewrite join_cons_cons.
        by destruct (join [Char.SPACE] (w :: ws)) eqn:E; [apply join_nonempty in E|].
      * rewrite rstrip_cons. rewrite IH.
        pose proof (words_nonempty (d :: r')) as Hw.
        destruct (words (d :: r')) as [|w ws]; [done|].
        inversion Hw; subst.
        destruct (join [Char.SPACE] (w :: ws)) eqn:E; [by apply join_nonempty in E|].
        change (join [Char.SPACE] ([c] :: w :: ws))
          with ([c] ++ [Char.SPACE] ++ join [Char.SPACE] (w :: ws)).
        by rewrite E.
  - rewrite IH. simpl. by rewrite Ec.
Qed.

Lemma collapse_true_head s :
  drop_while Char.is_space (collapse_ws_go false (blank_disallowed s))
  = collapse_ws_go true (blank_disallowed s).
Proof.
  destruct s as [|c r]; [done|]. rewrite !collapse_blank_cons.
  destruct (word_char c) eqn:Ec.
  - destruct (word_char_kept c Ec) as [_ Hs]. simpl. by rewrite Hs.
  - simpl. apply drop_while_id. intros d Hd.
    by destruct (collapse_ws_go_head true _ _ Hd) as [H _]; apply H.
Qed.

Lemma normalize_text_words (unicode_lower : str → N → str → str) s :
  normalize_text unicode_lower s = join [Char.SPACE] (words (lower unicode_lower s)).
Proof.
  unfold normalize_text, collapse_ws. rewrite strip_rstrip, collapse_true_head.
  apply rstrip_collapse_words.
Qed.

End WordsFacts.

(** [str.lower()] character by character: the result is the concatenation
    of one image per character, and the image of an ASCII character is its
    [Char.lower_ascii]. *)
Lemma lower_from_images (unicode_lower : str → N → str → str) (before s : str) :
  ∃ images : list str,
    length images = length s ∧
    lower_from unicode_lower before s = concat images ∧
    ∀ i c, s !! i = Some c → Char.is_ascii c = true →
           images !! i = Some [Char.lower_ascii c].
Proof.
  revert before. induction s as [|d s IH]; intros before.
  - exists []. by split_and!.
  - destruct (IH (before ++ [d])) as (images & Hl & E & Hi).
    exists ((if Char.is_ascii d then [Char.lower_ascii d]
             else unicode_lower before d s) :: images).
    split_and!.
    + simpl. by rewrite Hl.
    + simpl. by rewrite E.
    + intros [|i] c; simpl.
      * intros [= ->] ->. done.
      * apply Hi.
Qed.

(** * Sample evaluations *)

Example normalize_text_ci_cd :
  normalize_text ascii_lower (codes "  Senior C++/C# Dev:  CI/CD, Spring   Boot. ")
  = codes "senior c++ c# dev ci cd spring boot.".
Proof. vm_compute. reflexivity. Qed.

Example words_sample :
  words (codes "  senior c++ c#  dev.  ci cd ")
  = codes <$> ["senior"; "c++"; "c#"; "dev."; "ci"; "cd"]%string.
Proof. vm_compute. reflexivity. Qed.

(** Beyond ASCII: the bullet is blanked out, and the words around it are
    lower-cased as in an ASCII text. *)
Example normalize_text_bullet :
  normalize_text ascii_lower ([Char.BULLET] ++ codes " MyC++ and xC#")
  = codes "myc++ and xc#".
Proof. vm_compute. reflexivity. Qed.

Example findall_tokens_sample :
  findall_tokens (codes "a C++, x1y22 JavaScript!")
  = codes <$> ["C++"; "JavaScript"]%string.
Proof. vm_compute. reflexivity. Qed.

Example splitlines_sample :
  splitlines (codes "ab" ++ [13; 10]%N ++ codes "cd" ++ [10; 10]%N ++ codes "- x" ++ [10]%N)
  = codes <$> ["ab"; "cd"; ""; "- x"]%string.
Proof. vm_compute. reflexivity. Qed.

Example extract_skills_mixed_case :
  extract_skills ascii_lower (codes "JavaScript, PostgreSQL and Spring Boot")
    COMMON_SKILLS
  = codes <$> ["java"; "javascript"; "postgresql"; "spring"; "spring boot"; "sql"]%string.
Proof. vm_compute. reflexivity. Qed.

(** Two skills out of three score the float 66.67. *)
Example score_two_thirds :
  round2 (float_mul (true_divide 2 3) 100) = fl (6667 # 100).
Proof. vm_compute. reflexivity. Qed.

(** In exact arithmetic 23 skills out of 160 are 14.375 per cent, a tie that
    would round to 14.38. The float product is just below the tie, and the
    score is 14.37. *)
Example score_23_of_160 :
  round2 (float_mul (true_divide 23 160) 100) = fl (1437 # 100)
  ∧ (float_mul (true_divide 23 160) 100 < 14375 # 1000)%Q.
Proof. split; vm_compute; reflexivity. Qed.

(** One skill out of 20000 is 0.005 per cent in exact arithmetic; the float
    product is just above it, and the score is 0.01. *)
Example score_1_of_20000 :
  round2 (float_mul (true_divide 1 20000) 100) = fl (1 # 100).
Proof. vm_compute. reflexivity. Qed.

(** Floats that are no decimal numbers: 0.1 and 66.67. *)
Example fl_one_tenth :
  fl (1 # 10) = (3602879701896397 # 36028797018963968)%Q
  ∧ fl (6667 # 100) = (4691484174324859 # 70368744177664)%Q.
Proof. split; vm_compute; reflexivity. Qed.

Example analyze_offline_trace :
  trace (analyze_resume_and_job ascii_lower json_loads_sample no_repr no_repr
           OFFLINE (Some RESUME_1) (Some JOB_1))
  = [CallHeuristic].
Proof. vm_compute. reflexivity. Qed.

Example analyze_offline_summary :
  short_summary (value (analyze_resume_and_job ascii_lower json_loads_sample
                          no_repr no_repr OFFLINE (Some RESUME_1) (Some JOB_1)))
  = codes "Resume contains 4 recognized skills. Job requires 3 recognized skills.".
Proof. vm_compute. reflexivity. Qed.

(** * The properties of the specification *)

(** C7. [normalize_text] is total, and for every input string:
    its result holds only the characters a-z, 0-9, space, [+], [#], [.] and
    [-] (so no upper-case letter is left), has no two consecutive spaces and
    no white space at either end; the empty string is mapped to the empty
    string; and the input is lower-cased. The result is the words of the
    lower-cased input, joined by single spaces, where [str.lower] maps the
    input character by character and every ASCII character to its lower
    case; so on an ASCII input the result is the words of the input with
    A-Z replaced by a-z, and in any input a word of letters, digits and the
    four signs occurs lower-cased in the result. *)
Theorem normalize_text_wellformed (unicode_lower : str → N → str → str) (s : str) :
  let t := normalize_text unicode_lower s in
  Forall (λ c, Char.allowed c = true) t ∧
  Forall (λ c, Char.is_upper c = false) t ∧
  no_double_space t ∧
  (∀ c, head t = Some c → Char.is_space c = false) ∧
  (∀ c, last t = Some c → Char.is_space c = false) ∧
  (∀ w, Forall (λ c, Char.allowed (Char.lower_ascii c) = true ∧ c ≠ Char.SPACE) w →
        normalize_text unicode_lower w = Char.lower_ascii <$> w) ∧
  normalize_text unicode_lower [] = [] ∧
  t = join [Char.SPACE] (words (lower unicode_lower s)) ∧
  (∃ images : list str,
     length images = length s ∧
     lower unicode_lower s = concat images ∧
     ∀ i c, s !! i = Some c → Char.is_ascii c = true →
            images !! i = Some [Char.lower_ascii c]) ∧
  (Forall (λ c, Char.is_ascii c = true) s →
   t = join [Char.SPACE] (words (Char.lower_ascii <$> s))) ∧
  (∀ w, w ≠ [] →
        Forall (λ c, word_char (Char.lower_ascii c) = true) w →
        occurs_in w s →
        occurs_in (Char.lower_ascii <$> w) t).
Proof.
  intros t. destruct (normalize_text_normal unicode_lower s) as (Ha & Hd & Hh & Hl).
  split_and!; try done.
  - eapply Forall_impl; [exact Ha|]. apply allowed_not_upper.
  - apply normalize_text_word.
  - apply normalize_text_words.
  - apply lower_from_images.
  - intros Hascii. subst t.
    by rewrite normalize_text_words, (lower_ascii_text _ _ Hascii).
  - intros w Hne Hw. apply normalize_text_keeps_word; [done|].
    eapply Forall_impl; [exact Hw|]. intros c. apply word_char_kept.
Qed.

(** C10. [normalize_text] is idempotent. *)
Theorem normalize_text_idempotent (unicode_lower : str → N → str → str) (s : str) :
  normalize_text unicode_lower (normalize_text unicode_lower s)
  = normalize_text unicode_lower s.
Proof. apply normalize_text_fixed, normalize_text_normal. Qed.

(** C2. The result of [extract_skills] is the union of the substring pass
    over the normalised text and of the token pass over the original text,
    whose tokens are the maximal runs of at least two letters, [+] and [#];
    every text in which "C++" and "C#" occur yields the two distinct skills
    "c++" and "c#", as the resume of Example 3 does. *)
Theorem extract_skills_two_passes (unicode_lower : str → N → str → str) :
  (∀ text T x,
     x ∈ extract_skills unicode_lower text T ↔
     substring_pass unicode_lower text T x ∨ token_pass unicode_lower text T x) ∧
  (∀ text tok, tok ∈ findall_tokens text ↔ token_run text tok) ∧
  (∀ text T,
     occurs_in (codes "C++") text → occurs_in (codes "C#") text →
     codes "c++" ∈ T → codes "c#" ∈ T →
     codes "c++" ∈ extract_skills unicode_lower text T ∧
     codes "c#" ∈ extract_skills unicode_lower text T ∧
     codes "c++" ≠ codes "c#") ∧
  extract_skills unicode_lower RESUME_3 COMMON_SKILLS
  = codes <$> ["c#"; "c++"; "linux"]%string.
Proof.
  split_and!.
  - intros text T x. rewrite elem_of_extract_skills.
    unfold substring_pass, token_pass. split.
    + intros [HT [H | (tok & Hr & <-)]]; [by left|]. right. by exists tok.
    + intros [[HT H] | (tok & Hr & <- & HT)]; (split; [done|]); [by left|].
      right. by exists tok.
  - apply findall_tokens_spec.
  - intros text T Hpp Hsharp Tpp Tsharp.
    rewrite !elem_of_extract_skills. split_and!; try done.
    + left. change (codes "c++") with (Char.lower_ascii <$> codes "C++").
      apply normalize_text_keeps_word; try done.
      by repeat (apply Forall_cons; split; [by split|]).
    + left. change (codes "c#") with (Char.lower_ascii <$> codes "C#").
      apply normalize_text_keeps_word; try done.
      by repeat (apply Forall_cons; split; [by split|]).
  - vm_compute. reflexivity.
Qed.

(** C6. The result of [extract_skills] holds only skills of the taxonomy,
    has no duplicates and is sorted, strictly, in [str_le], which is the
    lexicographic order of the code points; the function is total (the scan
    of the token pass ends within the fuel it is given), and an empty
    taxonomy yields an empty result. *)
Theorem extract_skills_invariants (unicode_lower : str → N → str → str)
    (text : str) (T : list str) :
  (∀ x, x ∈ extract_skills unicode_lower text T → x ∈ T) ∧
  NoDup (extract_skills unicode_lower text T) ∧
  Sorted str_le (extract_skills unicode_lower text T) ∧
  StronglySorted str_lt (extract_skills unicode_lower text T) ∧
  (∀ a b, str_le a b ↔
          (∃ post, b = a ++ post) ∨
          (∃ p x y a' b', a = p ++ x :: a' ∧ b = p ++ y :: b' ∧ (x < y)%N)) ∧
  (∀ fuel, (length text ≤ fuel)%nat →
           findall_tokens_fuel fuel text = findall_tokens text) ∧
  extract_skills unicode_lower text [] = [].
Proof.
  split_and!.
  - by intros x [? _]%elem_of_extract_skills.
  - apply NoDup_sorted.
  - apply Sorted_sorted.
  - apply StronglySorted_sorted.
  - apply str_le_lexicographic.
  - intros fuel. apply findall_tokens_fuel_enough.
  - apply extract_skills_nil.
Qed.

(** C1. [compute_match] returns 0.0 for an empty job skill list and
    otherwise [round(|set(R) ∩ set(J)| / |set(J)| * 100, 2)], computed on
    floats: the quotient, the product and the rounding to two decimals each
    give the nearest float. The texts of Example 1 score the float 66.67
    with no provider configured, and an empty job description scores 0.0
    whatever the resume. *)
Theorem compute_match_correct :
  (∀ R J, compute_match R J = score_spec R J) ∧
  (∀ unicode_lower json_loads json_dumps py_repr,
     let out := value (analyze_resume_and_job unicode_lower json_loads json_dumps
                         py_repr OFFLINE (Some RESUME_1) (Some JOB_1)) in
     skills_resume out = codes <$> ["aws"; "docker"; "python"; "react"]%string ∧
     skills_job out = codes <$> ["docker"; "kubernetes"; "python"]%string ∧
     match_score out = fl (6667 # 100)) ∧
  (∀ unicode_lower json_loads json_dumps py_repr W resume_text,
     match_score (value (analyze_resume_and_job unicode_lower json_loads
                           json_dumps py_repr W resume_text (Some []))) = 0%Q ∧
     match_score (value (analyze_resume_and_job unicode_lower json_loads
                           json_dumps py_repr W resume_text None)) = 0%Q).
Proof.
  split_and!.
  - apply compute_match_score_spec.
  - intros ul jl jd pr out. subst out.
    destruct (analyze_chain ul jl jd pr OFFLINE (Some RESUME_1) (Some JOB_1))
      as (_ & _ & -> & -> & ->).
    split_and!; vm_compute; reflexivity.
  - intros ul jl jd pr W resume_text.
    assert (E : extract_skills ul [] COMMON_SKILLS = []) by (vm_compute; reflexivity).
    split.
    + destruct (analyze_chain ul jl jd pr W resume_text (Some [])) as (_ & _ & _ & _ & ->).
      simpl. rewrite E. apply compute_match_nil.
    + destruct (analyze_chain ul jl jd pr W resume_text None) as (_ & _ & _ & _ & ->).
      simpl. rewrite E. apply compute_match_nil.
Qed.

(** C5, as the code has it. The score is 0.0 when the job skill list is
    empty, and also when the resume shares no skill with it; it is positive
    when they share a skill (and the job has fewer than 20000 distinct
    skills); and for a fixed job skill list the score does not decrease when
    the number of shared skills grows. *)
Theorem compute_match_zero_and_monotone :
  (∀ R, compute_match R [] = 0%Q) ∧
  (∀ R J, (list_to_set R ∩ list_to_set J : gset str) = ∅ → compute_match R J = 0%Q) ∧
  (∀ R J, (list_to_set R ∩ list_to_set J : gset str) ≠ ∅ →
          (Z.of_nat (size (list_to_set J : gset str)) < 20000)%Z →
          (0 < compute_match R J)%Q) ∧
  (∀ R1 R2 J,
     (size (list_to_set R1 ∩ list_to_set J : gset str)
      ≤ size (list_to_set R2 ∩ list_to_set J : gset str))%nat →
     (compute_match R1 J <= compute_match R2 J)%Q).
Proof.
  split_and!.
  - apply compute_match_nil.
  - apply compute_match_disjoint.
  - apply compute_match_pos.
  - apply compute_match_mono.
Qed.

(** C5 at a resume with one of two job skills against one with both. *)
Lemma compute_match_zero_and_monotone_witness :
  (size (list_to_set [codes "python"] ∩ list_to_set [codes "python"; codes "docker"] : gset str)
   ≤ size (list_to_set [codes "python"; codes "docker"]
           ∩ list_to_set [codes "python"; codes "docker"] : gset str))%nat ∧
  (compute_match [codes "python"] [codes "python"; codes "docker"]
   <= compute_match [codes "python"; codes "docker"] [codes "python"; codes "docker"])%Q.
Proof.
  assert (H : (size (list_to_set [codes "python"]
                     ∩ list_to_set [codes "python"; codes "docker"] : gset str)
               ≤ size (list_to_set [codes "python"; codes "docker"]
                       ∩ list_to_set [codes "python"; codes "docker"] : gset str))%nat)
    by (vm_compute; repeat constructor).
  split; [exact H|].
  exact (proj2 (proj2 (proj2 compute_match_zero_and_monotone)) _ _ _ H).
Defined.

(** C5 as stated fails: a job skill list that is not empty, and a score of
    0.0, because the resume has none of its skills. *)
Lemma compute_match_zero_with_job_skills :
  compute_match [codes "java"] [codes "python"] = 0%Q ∧
  [codes "python"] ≠ ([] : list str).
Proof. split; [vm_compute; reflexivity | done]. Qed.

(** C3. In [analyze_resume_and_job] provider A runs only when its
    credential is configured; provider B runs only when A yielded nothing
    and B is configured; a non-empty list of a configured A is the result,
    with no call to B or to the heuristic; a non-empty list of B, when B
    runs, is the result, with no call to the heuristic; the heuristic gives
    at least two suggestions; and the final list is never empty. *)
Theorem provider_chain_precedence (unicode_lower : str → N → str → str)
    (json_loads : str → option pyval) (json_dumps py_repr : pyval → str)
    (W : World) (resume_text job_description : option str) :
  let r := default [] resume_text in
  let j := default [] job_description in
  let A := call_gemini_suggestions json_loads json_dumps py_repr W r j in
  let B := call_openai_suggestions json_loads W r j in
  let out := analyze_resume_and_job unicode_lower json_loads json_dumps py_repr W
               resume_text job_description in
  (CallGemini ∈ trace out → gemini_configured W = true) ∧
  (CallOpenAI ∈ trace out →
     (gemini_configured W = false ∨ Py.truthy (value A) = false)
     ∧ openai_configured W = true) ∧
  (∀ x l, gemini_configured W = true → value A = PList (x :: l) →
     suggestions (value out) = PList (x :: l) ∧
     trace out = trace A ∧
     (CallOpenAI ∉ trace out) ∧ (CallHeuristic ∉ trace out)) ∧
  (∀ x l, CallOpenAI ∈ trace out → value B = PList (x :: l) →
     suggestions (value out) = PList (x :: l) ∧ (CallHeuristic ∉ trace out)) ∧
  (∀ R J, (2 ≤ length (heuristic_suggestions R J))%nat) ∧
  (∃ x l, suggestions (value out) = PList (x :: l)).
Proof.
  intros r j A B out. split_and!.
  - apply gemini_only_if_configured.
  - apply openai_only_if_needed.
  - intros x l Hg HA.
    destruct (gemini_answer_wins unicode_lower json_loads json_dumps py_repr W
                resume_text job_description x l Hg HA) as [Hs Ht].
    split_and!; try done.
    + subst out. rewrite Ht.
      by intros [?|(? & ? & ?)]%gemini_trace_events.
    + subst out. rewrite Ht.
      by intros [?|(? & ? & ?)]%gemini_trace_events.
  - apply openai_answer_wins.
  - apply heuristic_suggestions_length.
  - apply suggestions_never_empty.
Qed.

(** C3 at two runs with both providers configured. In the first, A answers
    with two bullet lines: they are the result and B is not called. In the
    second, A yields nothing (its text decodes to a JSON object), B is
    called and answers with an array: it is the result and the heuristic is
    not called. *)
Lemma provider_chain_precedence_witness :
  let W := ONLINE BULLETS EIGHT_JSON in
  let out := analyze_resume_and_job ascii_lower json_loads_sample no_repr no_repr W
               (Some RESUME_1) (Some JOB_1) in
  let W' := ONLINE (codes "{}") EIGHT_JSON in
  let out' := analyze_resume_and_job ascii_lower json_loads_sample no_repr no_repr W'
                (Some RESUME_1) (Some JOB_1) in
  (gemini_configured W = true ∧
   suggestions (value out)
   = PList (PStr <$> [codes "Add Kubernetes"; codes "Quantify results"]) ∧
   (CallOpenAI ∉ trace out)) ∧
  (CallOpenAI ∈ trace out' ∧
   suggestions (value out') = PList (PStr <$> EIGHT) ∧
   (CallHeuristic ∉ trace out')).
Proof.
  intros W out W' out'. split.
  - assert (Hg : gemini_configured W = true) by reflexivity.
    assert (HA : value (call_gemini_suggestions json_loads_sample no_repr no_repr W
                          RESUME_1 JOB_1)
                 = PList (PStr <$> [codes "Add Kubernetes"; codes "Quantify results"]))
      by (vm_compute; reflexivity).
    destruct (provider_chain_precedence ascii_lower json_loads_sample no_repr no_repr W
                (Some RESUME_1) (Some JOB_1)) as (_ & _ & H & _).
    destruct (H _ _ Hg HA) as (Hs & _ & Ho & _).
    split_and!; [exact Hg | exact Hs | exact Ho].
  - assert (Hin : CallOpenAI ∈ trace out').
    { apply list_elem_of_In. vm_compute. right. right. left. reflexivity. }
    assert (HB : value (call_openai_suggestions json_loads_sample W' RESUME_1 JOB_1)
                 = PList (PStr <$> EIGHT))
      by (vm_compute; reflexivity).
    destruct (provider_chain_precedence ascii_lower json_loads_sample no_repr no_repr W'
                (Some RESUME_1) (Some JOB_1)) as (_ & _ & _ & H & _).
    destruct (H _ _ Hin HB) as (Hs & Hh).
    split_and!; [exact Hin | exact Hs | exact Hh].
Defined.

(** C4, where the code departs from it. Neither provider raises: each is
    a total function whose exceptions end in its handler. But provider A does
    not always return a list: when it is configured, the service answers and
    the text it generated decodes to a JSON value that is no array,
    [json.loads] succeeds, line 153 does not return, and the function ends
    with [None]. So it is for the generated text [{}]. *)
Theorem call_gemini_returns_None :
  (∀ json_dumps py_repr content resume job,
     value (call_gemini_suggestions json_loads_sample json_dumps py_repr
              (ONLINE (codes "{}") content) resume job) = PNone) ∧
  (∀ json_loads json_dumps py_repr W resume job data s v,
     gemini_configured W = true →
     (∀ url prompt, requests_post W url prompt = Ok data) →
     gemini_text_out json_dumps py_repr data = Ok (PStr s) →
     json_loads s = Some v → (∀ l, v ≠ PList l) →
     value (call_gemini_suggestions json_loads json_dumps py_repr W resume job)
     = PNone).
Proof.
  split; [reflexivity|].
  intros jl jd pr W resume job data s v Hg Hp Ht Hl Hv.
  unfold call_gemini_suggestions, gemini_configured in *.
  destruct (Py.env_or _ _) as [[|k ey]|]; try done.
  rewrite !value_bind, Hp. cbn [mbind res_bind]. rewrite Ht. cbn [mbind res_bind].
  by rewrite (gemini_result_not_list jl pr s v Hl Hv).
Qed.

(** C8, as the code has it. [heuristic_suggestions] never fails and
    returns, in this order, the line of the missing skills (the skills of the
    job that the resume lacks, sorted and joined by commas) when there are
    any, the two generic suggestions, and the suggestion on model metrics
    exactly when the job skills hold the skill "machine learning" or the
    skill "nlp"; in Example 1 the first line names "kubernetes". *)
Theorem heuristic_suggestions_correct :
  (∀ R J, heuristic_suggestions R J = heuristic_spec R J) ∧
  (∀ R J x, x ∈ sorted (list_to_set J ∖ list_to_set R) ↔ x ∈ J ∧ x ∉ R) ∧
  (∀ R J, StronglySorted str_lt (sorted (list_to_set J ∖ list_to_set R))) ∧
  (∀ unicode_lower json_loads json_dumps py_repr,
     suggestions (value (analyze_resume_and_job unicode_lower json_loads json_dumps
                           py_repr OFFLINE (Some RESUME_1) (Some JOB_1)))
     = PList (PStr <$> [MISSING_PREFIX ++ codes "kubernetes"; QUANTIFY; KEY_PROJECTS])).
Proof.
  split_and!.
  - apply heuristic_suggestions_spec.
  - apply elem_of_missing.
  - intros R J. apply StronglySorted_sorted.
  - intros ul jl jd pr.
    destruct (analyze_chain ul jl jd pr OFFLINE (Some RESUME_1) (Some JOB_1))
      as (_ & -> & _).
    vm_compute. reflexivity.
Qed.

(** C8 as stated fails: a job description that asks for deep learning,
    PyTorch, TensorFlow and scikit-learn has four skills of machine
    learning, and the heuristic gives no suggestion on model metrics. *)
Lemma heuristic_suggestions_deep_learning :
  extract_skills ascii_lower JOB_ML COMMON_SKILLS
  = codes <$> ["deep learning"; "pytorch"; "scikit-learn"; "tensorflow"]%string ∧
  Forall (λ x, x ∈ ML_NLP_SKILLS) (extract_skills ascii_lower JOB_ML COMMON_SKILLS) ∧
  heuristic_suggestions [] (extract_skills ascii_lower JOB_ML COMMON_SKILLS)
  = [ MISSING_PREFIX ++ codes "deep learning, pytorch, scikit-learn, tensorflow";
      QUANTIFY; KEY_PROJECTS ] ∧
  MODEL_METRICS ∉ heuristic_suggestions [] (extract_skills ascii_lower JOB_ML COMMON_SKILLS).
Proof.
  assert (E : extract_skills ascii_lower JOB_ML COMMON_SKILLS
              = codes <$> ["deep learning"; "pytorch"; "scikit-learn"; "tensorflow"]%string)
    by (vm_compute; reflexivity).
  rewrite E. split_and!.
  - done.
  - apply (bool_decide_unpack _). vm_compute. exact I.
  - vm_compute. reflexivity.
  - apply (bool_decide_unpack _). vm_compute. exact I.
Qed.

(** C9, as the code has it. On its line-split path provider A returns at
    most seven lines, each a non-blank line of the text, stripped and with
    its leading bullets removed; provider B returns at most seven
    suggestions unless the reply decodes to a JSON array, which it returns
    whole. *)
Theorem line_split_at_most_seven (json_loads : str → option pyval)
    (py_repr : pyval → str) (W : World) (resume job : str) :
  (∀ s, json_loads s = None →
     ∃ lines,
       gemini_result json_loads py_repr (PStr s) = Ok (PList (PStr <$> lines)) ∧
       (length lines ≤ 7)%nat ∧
       ∀ x, x ∈ lines →
         ∃ line, line ∈ splitlines s ∧ strip line ≠ [] ∧
                 x = strip_bullets (strip line)) ∧
  (∃ l, value (call_openai_suggestions json_loads W resume job) = PList l ∧
     ((length l ≤ 7)%nat ∨
      ∃ text, chat_completion W (openai_prompt resume job) = Ok text ∧
              loads json_loads text = Ok (PList l))).
Proof.
  split.
  - intros s Hs. exists (take 7 (cleaned_lines s)). split_and!.
    + by apply gemini_result_line_split.
    + apply cleaned_lines_bound.
    + intros x (i & Hi & _)%elem_of_take. apply elem_of_cleaned_lines.
      by eapply list_elem_of_lookup_2.
  - apply call_openai_value_bound.
Qed.

(** C9 at the bullet text of the sample runs, which is no JSON. *)
Lemma line_split_at_most_seven_witness :
  json_loads_sample BULLETS = None ∧
  ∃ lines,
    gemini_result json_loads_sample no_repr (PStr BULLETS)
    = Ok (PList (PStr <$> lines)) ∧ (length lines ≤ 7)%nat.
Proof.
  assert (H : json_loads_sample BULLETS = None) by reflexivity.
  split; [exact H|].
  destruct (proj1 (line_split_at_most_seven json_loads_sample no_repr OFFLINE [] [])
              BULLETS H) as (lines & E & Hl & _).
  exists lines. split; [exact E | exact Hl].
Defined.

(** C9 as stated fails: provider B, given a JSON array of eight strings,
    returns all eight. *)
Lemma openai_returns_eight_suggestions :
  value (call_openai_suggestions json_loads_sample (ONLINE BULLETS EIGHT_JSON)
           RESUME_1 JOB_1) = PList (PStr <$> EIGHT) ∧
  length EIGHT = 8%nat.
Proof. split; vm_compute; reflexivity. Qed.

(** * Further properties of the code *)

(** X1. The match score is a percentage: it lies between 0 and 100. *)
Theorem compute_match_in_range (R J : list str) :
  (0 <= compute_match R J)%Q ∧ (compute_match R J <= 100)%Q.
Proof. apply compute_match_bounds. Qed.

(** X2. When the job skill list is not empty and the resume has every job
    skill, the score is 100. *)
Theorem compute_match_all_job_skills (R J : list str) :
  J ≠ [] → (∀ x, x ∈ J → x ∈ R) → compute_match R J = 100%Q.
Proof. apply compute_match_full. Qed.

Lemma compute_match_all_job_skills_witness :
  ([codes "python"] ≠ ([] : list str)) ∧
  compute_match [codes "java"; codes "python"] [codes "python"] = 100%Q.
Proof.
  split; [done|].
  apply compute_match_all_job_skills; [done|].
  intros x ->%list_elem_of_singleton. right. left.
Defined.

(** X3. The score depends on the two lists only through their sets of
    skills: order and repetitions do not matter. *)
Theorem compute_match_order_irrelevant (R R' J J' : list str) :
  (∀ x, x ∈ R ↔ x ∈ R') → (∀ x, x ∈ J ↔ x ∈ J') →
  compute_match R J = compute_match R' J'.
Proof. apply compute_match_sets. Qed.

Lemma compute_match_order_irrelevant_witness :
  compute_match [codes "aws"; codes "python"] [codes "python"; codes "docker"]
  = compute_match [codes "python"; codes "aws"; codes "python"]
      [codes "docker"; codes "docker"; codes "python"].
Proof.
  apply compute_match_order_irrelevant; intros x;
    rewrite !elem_of_cons, !elem_of_nil; tauto.
Defined.

(** X4. The skills extracted from a text depend on the taxonomy only
    through its set of entries: its order and repetitions do not matter. *)
Theorem extract_skills_taxonomy_order (unicode_lower : str → N → str → str)
    (text : str) (T T' : list str) :
  (∀ x, x ∈ T ↔ x ∈ T') →
  extract_skills unicode_lower text T = extract_skills unicode_lower text T'.
Proof.
  intros H. apply extract_skills_ext. intros x.
  rewrite !elem_of_extract_skills. by rewrite H.
Qed.

Lemma extract_skills_taxonomy_order_witness :
  extract_skills ascii_lower RESUME_1 [codes "python"; codes "aws"]
  = extract_skills ascii_lower RESUME_1 [codes "aws"; codes "python"; codes "aws"].
Proof.
  apply extract_skills_taxonomy_order. intros x.
  rewrite !elem_of_cons, !elem_of_nil. tauto.
Defined.

(** X5. A detected skill holds only the characters a-z, 0-9, space, [+],
    [#], [.] and [-]; so the taxonomy entry "ci/cd" is reported for no
    text. *)
Theorem extract_skills_charset (unicode_lower : str → N → str → str) :
  (∀ text T x, x ∈ extract_skills unicode_lower text T →
               Forall (λ c, Char.allowed c = true) x) ∧
  (∀ text T, codes "ci/cd" ∉ extract_skills unicode_lower text T).
Proof.
  split; [apply extract_skills_allowed|].
  intros text T H%extract_skills_allowed.
  assert (Hin : 47%N ∈ codes "ci/cd") by (apply (bool_decide_unpack _); vm_compute; exact I).
  by eapply Forall_forall in H; [|exact Hin].
Qed.

(** X6. On an ASCII text the token pass adds nothing: a skill is extracted
    exactly when it is in the taxonomy and occurs in the normalised text. *)
Theorem extract_skills_ascii (unicode_lower : str → N → str → str)
    (text : str) (T : list str) (x : str) :
  Forall (λ c, Char.is_ascii c = true) text →
  x ∈ extract_skills unicode_lower text T ↔
  x ∈ T ∧ occurs_in x (normalize_text unicode_lower text).
Proof. apply elem_of_extract_skills_ascii. Qed.

Lemma extract_skills_ascii_witness :
  Forall (λ c, Char.is_ascii c = true) RESUME_3 ∧
  (codes "c++" ∈ extract_skills ascii_lower RESUME_3 COMMON_SKILLS ↔
   codes "c++" ∈ COMMON_SKILLS
   ∧ occurs_in (codes "c++") (normalize_text ascii_lower RESUME_3)).
Proof.
  assert (H : Forall (λ c, Char.is_ascii c = true) RESUME_3)
    by (apply (bool_decide_unpack _); vm_compute; exact I).
  split; [exact H|]. exact (extract_skills_ascii ascii_lower RESUME_3 COMMON_SKILLS _ H).
Defined.

(** X7. On an ASCII text, skill extraction ignores letter case: the text
    and its lower-cased form yield the same skills. *)
Theorem extract_skills_case_insensitive (unicode_lower : str → N → str → str)
    (text : str) (T : list str) :
  Forall (λ c, Char.is_ascii c = true) text →
  extract_skills unicode_lower text T
  = extract_skills unicode_lower (Char.lower_ascii <$> text) T.
Proof.
  intros Hascii. apply extract_skills_ext. intros x.
  rewrite !elem_of_extract_skills_ascii, normalize_text_lower_ascii; try done.
  apply Forall_fmap. eapply Forall_impl; [exact Hascii|]. apply lower_ascii_is_ascii.
Qed.

Lemma extract_skills_case_insensitive_witness :
  Forall (λ c, Char.is_ascii c = true) RESUME_1 ∧
  extract_skills ascii_lower RESUME_1 COMMON_SKILLS
  = extract_skills ascii_lower (Char.lower_ascii <$> RESUME_1) COMMON_SKILLS.
Proof.
  assert (H : Forall (λ c, Char.is_ascii c = true) RESUME_1)
    by (apply (bool_decide_unpack _); vm_compute; exact I).
  split; [exact H|]. exact (extract_skills_case_insensitive ascii_lower RESUME_1 _ H).
Defined.

(** X8. Substring matching: on an ASCII text, when a skill is detected,
    every taxonomy entry that occurs inside that skill's name is detected
    too (as "java" is with "javascript"). *)
Theorem extract_skills_substring_closed (unicode_lower : str → N → str → str)
    (text : str) (T : list str) (x y : str) :
  Forall (λ c, Char.is_ascii c = true) text →
  x ∈ T → occurs_in x y →
  y ∈ extract_skills unicode_lower text T →
  x ∈ extract_skills unicode_lower text T.
Proof.
  intros Hascii Hx Hxy. rewrite !elem_of_extract_skills_ascii by done.
  intros [_ Hy]. split; [done|]. by eapply occurs_in_trans.
Qed.

Lemma extract_skills_substring_closed_witness :
  let text := codes "Wrote JavaScript for five years." in
  (Forall (λ c, Char.is_ascii c = true) text ∧
   codes "java" ∈ COMMON_SKILLS ∧
   occurs_in (codes "java") (codes "javascript") ∧
   codes "javascript" ∈ extract_skills ascii_lower text COMMON_SKILLS) ∧
  codes "java" ∈ extract_skills ascii_lower text COMMON_SKILLS.
Proof.
  intros text.
  assert (H1 : Forall (λ c, Char.is_ascii c = true) text)
    by (apply (bool_decide_unpack _); vm_compute; exact I).
  assert (H2 : codes "java" ∈ COMMON_SKILLS)
    by (apply (bool_decide_unpack _); vm_compute; exact I).
  assert (H3 : occurs_in (codes "java") (codes "javascript"))
    by (by exists [], (codes "script")).
  assert (H4 : codes "javascript" ∈ extract_skills ascii_lower text COMMON_SKILLS)
    by (apply (bool_decide_unpack _); vm_compute; exact I).
  split; [by split_and!|].
  exact (extract_skills_substring_closed ascii_lower text COMMON_SKILLS _ _ H1 H2 H3 H4).
Defined.

(** X9. Analysing a text against itself scores 100 when a skill is
    recognised in it, and 0.0 when none is. *)
Theorem analyze_same_text (unicode_lower : str → N → str → str)
    (json_loads : str → option pyval) (json_dumps py_repr : pyval → str)
    (W : World) (text : option str) :
  let out := value (analyze_resume_and_job unicode_lower json_loads json_dumps
                      py_repr W text text) in
  skills_resume out = skills_job out ∧
  match_score out = if bool_decide (skills_job out = []) then 0%Q else 100%Q.
Proof.
  intros out. subst out.
  destruct (analyze_chain unicode_lower json_loads json_dumps py_repr W text text)
    as (_ & _ & -> & -> & ->).
  split; [done|]. case_bool_decide as E.
  - rewrite E. apply compute_match_nil.
  - by apply compute_match_full.
Qed.

(** X10. Provider A returns [None] or a list whose items are all
    strings. *)
Theorem call_gemini_strings_or_None (json_loads : str → option pyval)
    (json_dumps py_repr : pyval → str) (W : World) (resume job : str) :
  value (call_gemini_suggestions json_loads json_dumps py_repr W resume job) = PNone ∨
  ∃ l : list str,
    value (call_gemini_suggestions json_loads json_dumps py_repr W resume job)
    = PList (PStr <$> l).
Proof. apply call_gemini_strings. Qed.

(** X11. No retry and a fixed order: the events of an analysis form a
    sub-sequence of: call A, its one request, call B, its one request, call
    the heuristic. *)
Theorem analyze_no_retry (unicode_lower : str → N → str → str)
    (json_loads : str → option pyval) (json_dumps py_repr : pyval → str)
    (W : World) (resume_text job_description : option str) :
  let r := default [] resume_text in
  let j := default [] job_description in
  trace (analyze_resume_and_job unicode_lower json_loads json_dumps py_repr W
           resume_text job_description)
  `sublist_of`
  [CallGemini; HttpPost (gemini_request_url W) (gemini_prompt r j);
   CallOpenAI; ChatCreate (openai_prompt r j); CallHeuristic].
Proof. intros r j. apply analyze_trace_sublist. Qed.

(** X12. Without the credentials of either provider, an analysis sends
    nothing over the network: its only event is the call of the heuristic,
    whose suggestions are the result. *)
Theorem analyze_without_credentials (unicode_lower : str → N → str → str)
    (json_loads : str → option pyval) (json_dumps py_repr : pyval → str)
    (W : World) (resume_text job_description : option str) :
  gemini_configured W = false → openai_configured W = false →
  let out := analyze_resume_and_job unicode_lower json_loads json_dumps py_repr W
               resume_text job_description in
  trace out = [CallHeuristic] ∧
  suggestions (value out)
  = PList (PStr <$> heuristic_suggestions (skills_resume (value out))
                      (skills_job (value out))).
Proof.
  intros Hg Ho out.
  destruct (analyze_offline unicode_lower json_loads json_dumps py_repr W
              resume_text job_description Hg Ho) as [Ht Hs].
  destruct (analyze_chain unicode_lower json_loads json_dumps py_repr W
              resume_text job_description) as (_ & _ & Hr & Hj & _).
  subst out. by rewrite Hr, Hj.
Qed.

Lemma analyze_without_credentials_witness :
  let out := analyze_resume_and_job ascii_lower json_loads_sample no_repr no_repr
               OFFLINE (Some RESUME_1) (Some JOB_1) in
  (gemini_configured OFFLINE = false ∧ openai_configured OFFLINE = false) ∧
  trace out = [CallHeuristic] ∧
  suggestions (value out)
  = PList (PStr <$> heuristic_suggestions (skills_resume (value out))
                      (skills_job (value out))).
Proof.
  intros out. split; [by split|].
  exact (analyze_without_credentials ascii_lower json_loads_sample no_repr no_repr
           OFFLINE (Some RESUME_1) (Some JOB_1) eq_refl eq_refl).
Defined.

(** X13. Graceful degradation: when the requests of both providers fail,
    the suggestions are those of the heuristic. *)
Theorem analyze_providers_down (unicode_lower : str → N → str → str)
    (json_loads : str → option pyval) (json_dumps py_repr : pyval → str)
    (W : World) (resume_text job_description : option str) :
  (∀ url prompt, requests_post W url prompt = Raise) →
  (∀ prompt, chat_completion W prompt = Raise) →
  let out := value (analyze_resume_and_job unicode_lower json_loads json_dumps
                      py_repr W resume_text job_description) in
  suggestions out
  = PList (PStr <$> heuristic_suggestions (skills_resume out) (skills_job out)).
Proof.
  intros Hp Hc out.
  pose proof (analyze_degraded unicode_lower json_loads json_dumps py_repr W
                resume_text job_description Hp Hc) as Hs.
  destruct (analyze_chain unicode_lower json_loads json_dumps py_repr W
              resume_text job_description) as (_ & _ & Hr & Hj & _).
  subst out. by rewrite Hr, Hj.
Qed.

Lemma analyze_providers_down_witness :
  let out := value (analyze_resume_and_job ascii_lower json_loads_sample no_repr
                      no_repr DOWN (Some RESUME_1) (Some JOB_1)) in
  (gemini_configured DOWN = true ∧ openai_configured DOWN = true) ∧
  suggestions out
  = PList (PStr <$> heuristic_suggestions (skills_resume out) (skills_job out)).
Proof.
  intros out. split; [by split|].
  exact (analyze_providers_down ascii_lower json_loads_sample no_repr no_repr DOWN
           (Some RESUME_1) (Some JOB_1) (λ _ _, eq_refl) (λ _, eq_refl)).
Defined.

(** X14. A reply of provider B that [json.loads] rejects, plain bullet
    text for instance, gives the empty list: provider B splits a reply into
    lines only after decoding it as JSON. *)
Theorem call_openai_plain_text_dropped (json_loads : str → option pyval)
    (W : World) (resume job : str) (text : pyval) :
  chat_completion W (openai_prompt resume job) = Ok text →
  loads json_loads text = Raise →
  value (call_openai_suggestions json_loads W resume job) = PList [].
Proof. apply call_openai_not_json. Qed.

Lemma call_openai_plain_text_dropped_witness :
  let W := ONLINE (codes "{}") BULLETS in
  (chat_completion W (openai_prompt RESUME_1 JOB_1) = Ok (PStr BULLETS) ∧
   loads json_loads_sample (PStr BULLETS) = Raise) ∧
  value (call_openai_suggestions json_loads_sample W RESUME_1 JOB_1) = PList [].
Proof.
  intros W. split; [by split|].
  exact (call_openai_plain_text_dropped json_loads_sample W RESUME_1 JOB_1
           (PStr BULLETS) eq_refl eq_refl).
Defined.

(** X15. Provider A on a reply of the text-bison shape, whose
    [candidates[0].output] is a non-empty string [s]: when [s] is no JSON
    the result is its first seven cleaned lines; when [s] decodes to an
    array the result is the array's items as strings; when [s] decodes to
    anything else the result is [None]. *)
Theorem call_gemini_text_bison (json_loads : str → option pyval)
    (json_dumps py_repr : pyval → str) (W : World) (resume job : str)
    (d c0 : list (str * pyval)) (rest : list pyval) (s : str) :
  gemini_configured W = true →
  (∀ url prompt, requests_post W url prompt = Ok (PDict d)) →
  Py.lookup d (codes "candidates") = Some (PList (PDict c0 :: rest)) →
  Py.lookup c0 (codes "output") = Some (PStr s) → s ≠ [] →
  value (call_gemini_suggestions json_loads json_dumps py_repr W resume job)
  = match json_loads s with
    | None => PList (PStr <$> take 7 (cleaned_lines s))
    | Some (PList xs) => PList (PStr <$> (py_str py_repr <$> xs))
    | Some _ => PNone
    end.
Proof.
  intros Hg Hp Hd Hc Hs. destruct (json_loads s) as [v|] eqn:El.
  - destruct v;
      first [ by eapply call_gemini_candidate_array
            | by eapply call_gemini_candidate_other ].
  - by eapply call_gemini_candidate_lines.
Qed.

Lemma call_gemini_text_bison_witness :
  let W := ONLINE BULLETS EIGHT_JSON in
  let c0 := [(codes "output", PStr BULLETS)] in
  let d := [(codes "candidates", PList [PDict c0])] in
  (gemini_configured W = true ∧
   (∀ url prompt, requests_post W url prompt = Ok (PDict d)) ∧
   Py.lookup d (codes "candidates") = Some (PList [PDict c0]) ∧
   Py.lookup c0 (codes "output") = Some (PStr BULLETS) ∧
   BULLETS ≠ []) ∧
  value (call_gemini_suggestions json_loads_sample no_repr no_repr W RESUME_1 JOB_1)
  = match json_loads_sample BULLETS with
    | None => PList (PStr <$> take 7 (cleaned_lines BULLETS))
    | Some (PList xs) => PList (PStr <$> (py_str no_repr <$> xs))
    | Some _ => PNone
    end.
Proof.
  intros W c0 d.
  assert (H5 : BULLETS ≠ []) by done.
  split; [by split_and!|].
  exact (call_gemini_text_bison json_loads_sample no_repr no_repr W RESUME_1 JOB_1
           d c0 [] BULLETS eq_refl (λ _ _, eq_refl) eq_refl eq_refl H5).
Defined.

(** X16. The requests are bounded: whatever the lengths of the two texts,
    the prompt sent to provider A has at most 347 + 4000 + 4000 characters
    and the prompt sent to provider B at most 300 + 4000 + 4000. *)
Theorem analyze_request_size (unicode_lower : str → N → str → str)
    (json_loads : str → option pyval) (json_dumps py_repr : pyval → str)
    (W : World) (resume_text job_description : option str) :
  Forall (λ e, match e with
               | HttpPost _ prompt => (length prompt ≤ 347 + 4000 + 4000)%nat
               | ChatCreate prompt => (length prompt ≤ 300 + 4000 + 4000)%nat
               | _ => True
               end)
    (trace (analyze_resume_and_job unicode_lower json_loads json_dumps py_repr W
              resume_text job_description)).
Proof.
  apply Forall_forall. intros e He.
  eapply elem_of_sublist in He; [|apply analyze_trace_sublist].
  repeat (apply elem_of_cons in He as [-> | He]); try exact I.
  - rewrite gemini_prompt_length. lia.
  - rewrite openai_prompt_length. lia.
  - by apply elem_of_nil in He.
Qed.

(** X17. On the line-split path of provider A every cleaned line is a
    single line (it holds no line boundary) and has no white space at its
    start or end. *)
Theorem gemini_clean_lines_single_line (text_out : str) :
  Forall (λ x, Forall (λ c, Char.is_linebreak c = false) x ∧
               (∀ c, head x = Some c → Char.is_space c = false) ∧
               (∀ c, last x = Some c → Char.is_space c = false))
    (gemini_clean_lines text_out).
Proof.
  rewrite gemini_clean_lines_cleaned. apply Forall_forall.
  intros x Hx. by apply (cleaned_line_shape text_out).
Qed.

(** X18. What [extract_text_from_file] returns, by the ending of the
    lower-cased name. A name that ends neither in .pdf nor in .docx: the
    lenient decoding of the raw bytes. A name in .pdf, when the reader gives
    the texts of the pages: these texts joined by line feeds; and so for a
    name in .docx and the texts of the paragraphs. When the reader raises,
    or gives a page or paragraph that is no string: the lenient decoding of
    the raw bytes, so a failing reader never makes the function fail. There
    is no other result. *)
Theorem extract_text_from_file_result (unicode_lower : str → N → str → str)
    (decode_ignore : bytes → str) (pdf_pages docx_paragraphs : bytes → res (list pyval))
    (filename : str) (raw : bytes) :
  let name := lower unicode_lower filename in
  let text := extract_text_from_file unicode_lower decode_ignore pdf_pages
                docx_paragraphs filename raw in
  (ends_with name (codes ".pdf") = false → ends_with name (codes ".docx") = false →
   text = decode_ignore raw) ∧
  (ends_with name (codes ".pdf") = true →
   ∀ pages : list str, pdf_pages raw = Ok (PStr <$> pages) → text = join NL pages) ∧
  (ends_with name (codes ".docx") = true →
   ∀ paragraphs : list str,
     docx_paragraphs raw = Ok (PStr <$> paragraphs) → text = join NL paragraphs) ∧
  (ends_with name (codes ".pdf") = true →
   (pdf_pages raw = Raise ∨
    ∃ pages, pdf_pages raw = Ok pages ∧ ¬ ∃ ss : list str, pages = PStr <$> ss) →
   text = decode_ignore raw) ∧
  (ends_with name (codes ".docx") = true →
   (docx_paragraphs raw = Raise ∨
    ∃ ps, docx_paragraphs raw = Ok ps ∧ ¬ ∃ ss : list str, ps = PStr <$> ss) →
   text = decode_ignore raw) ∧
  (text = decode_ignore raw ∨
   (ends_with name (codes ".txt") = false ∧ ends_with name (codes ".pdf") = true ∧
    ∃ pages : list str, pdf_pages raw = Ok (PStr <$> pages) ∧ text = join NL pages) ∨
   (ends_with name (codes ".txt") = false ∧ ends_with name (codes ".pdf") = false ∧
    ends_with name (codes ".docx") = true ∧
    ∃ paragraphs : list str,
      docx_paragraphs raw = Ok (PStr <$> paragraphs) ∧ text = join NL paragraphs)).
Proof.
  intros name text. split_and!.
  - apply extract_text_from_file_plain.
  - intros H pages. by apply extract_text_from_file_pdf.
  - intros H paragraphs. by apply extract_text_from_file_docx.
  - intros H Hr. by apply extract_text_from_file_pdf_fallback.
  - intros H Hr. by apply extract_text_from_file_docx_fallback.
  - apply extract_text_from_file_cases.
Qed.

(** X18 at a Word file with two paragraphs, and at one that the reader
    rejects. *)
Example extract_text_from_file_docx_sample :
  extract_text_from_file ascii_lower decode_sample no_reader two_pages
    (codes "Resume.DOCX") [80; 75]%N
  = codes "Python and Docker" ++ NL ++ codes "AWS" ∧
  extract_text_from_file ascii_lower decode_sample no_reader no_reader
    (codes "Resume.DOCX") [80; 75]%N
  = [80; 75]%N.
Proof. split; vm_compute; reflexivity. Qed.

(** X19. For a file whose lower-cased name ends neither in .pdf nor in
    .docx, the text is the lenient decoding of the raw bytes, whatever the
    two readers would do. *)
Theorem extract_text_from_file_plain_name (unicode_lower : str → N → str → str)
    (decode_ignore : bytes → str) (pdf_pages docx_paragraphs : bytes → res (list pyval))
    (filename : str) (raw : bytes) :
  ends_with (lower unicode_lower filename) (codes ".pdf") = false →
  ends_with (lower unicode_lower filename) (codes ".docx") = false →
  extract_text_from_file unicode_lower decode_ignore pdf_pages docx_paragraphs
    filename raw
  = decode_ignore raw.
Proof. apply extract_text_from_file_plain. Qed.

Lemma extract_text_from_file_plain_name_witness :
  (ends_with (lower ascii_lower (codes "Notes.TXT")) (codes ".pdf") = false ∧
   ends_with (lower ascii_lower (codes "Notes.TXT")) (codes ".docx") = false) ∧
  extract_text_from_file ascii_lower decode_sample two_pages no_reader
    (codes "Notes.TXT") (codes "Python")
  = decode_sample (codes "Python").
Proof.
  split; [by split|].
  exact (extract_text_from_file_plain_name ascii_lower decode_sample two_pages
           no_reader (codes "Notes.TXT") (codes "Python") eq_refl eq_refl).
Defined.

(** X20. For a file whose lower-cased name ends in .pdf, when the reader
    gives the texts of the pages, the text is these texts joined by line
    feeds. *)
Theorem extract_text_from_file_pdf_pages (unicode_lower : str → N → str → str)
    (decode_ignore : bytes → str) (pdf_pages docx_paragraphs : bytes → res (list pyval))
    (filename : str) (raw : bytes) (pages : list str) :
  ends_with (lower unicode_lower filename) (codes ".pdf") = true →
  pdf_pages raw = Ok (PStr <$> pages) →
  extract_text_from_file unicode_lower decode_ignore pdf_pages docx_paragraphs
    filename raw
  = join NL pages.
Proof. apply extract_text_from_file_pdf. Qed.

Lemma extract_text_from_file_pdf_pages_witness :
  (ends_with (lower ascii_lower (codes "CV.PDF")) (codes ".pdf") = true ∧
   two_pages [37; 80; 68; 70]%N
   = Ok (PStr <$> [codes "Python and Docker"; codes "AWS"])) ∧
  extract_text_from_file ascii_lower decode_sample two_pages no_reader
    (codes "CV.PDF") [37; 80; 68; 70]%N
  = join NL [codes "Python and Docker"; codes "AWS"].
Proof.
  split; [by split|].
  exact (extract_text_from_file_pdf_pages ascii_lower decode_sample two_pages
           no_reader (codes "CV.PDF") [37; 80; 68; 70]%N
           [codes "Python and Docker"; codes "AWS"] eq_refl eq_refl).
Defined.

(** X21. Uploading a file whose lower-cased name ends neither in .pdf nor
    in .docx gives the analysis that [POST /analyze] gives for the decoded
    text of the file. *)
Theorem analyze_upload_plain_file (unicode_lower : str → N → str → str)
    (json_loads : str → option pyval) (json_dumps py_repr : pyval → str)
    (decode_ignore : bytes → str) (pdf_pages docx_paragraphs : bytes → res (list pyval))
    (W : World) (filename : str) (raw : bytes) (job_description : str) :
  ends_with (lower unicode_lower filename) (codes ".pdf") = false →
  ends_with (lower unicode_lower filename) (codes ".docx") = false →
  Main.analyze_upload unicode_lower json_loads json_dumps py_repr decode_ignore
    pdf_pages docx_paragraphs W filename raw job_description
  = Main.analyze unicode_lower json_loads json_dumps py_repr W
      {| Main.req_resume_text := Some (decode_ignore raw);
         Main.req_job_description := Some job_description |}.
Proof.
  intros Hpdf Hdocx. unfold Main.analyze_upload, Main.analyze.
  by rewrite extract_text_from_file_plain.
Qed.

Lemma analyze_upload_plain_file_witness :
  (ends_with (lower ascii_lower (codes "cv.txt")) (codes ".pdf") = false ∧
   ends_with (lower ascii_lower (codes "cv.txt")) (codes ".docx") = false) ∧
  Main.analyze_upload ascii_lower json_loads_sample no_repr no_repr decode_sample
    no_reader no_reader OFFLINE (codes "cv.txt") RESUME_1 JOB_1
  = Main.analyze ascii_lower json_loads_sample no_repr no_repr OFFLINE
      {| Main.req_resume_text := Some (decode_sample RESUME_1);
         Main.req_job_description := Some JOB_1 |}.
Proof.
  split; [by split|].
  exact (analyze_upload_plain_file ascii_lower json_loads_sample no_repr no_repr
           decode_sample no_reader no_reader OFFLINE (codes "cv.txt") RESUME_1 JOB_1
           eq_refl eq_refl).
Defined.

(** X22. What the backend analyses for a submission of the frontend. An
    uploaded resume that is not empty is sent under the name "resume", so
    the backend analyses the lenient decoding of its bytes, whatever the
    PDF and DOCX readers would give, against the job text of the text area;
    an empty upload is analysed as an empty resume; without an upload a
    submitted message is analysed as the resume; otherwise nothing is sent.
    The uploaded job-description file plays no part. *)
Theorem frontend_submission (unicode_lower : str → N → str → str)
    (json_loads : str → option pyval) (json_dumps py_repr : pyval → str)
    (decode_ignore : bytes → str) (pdf_pages docx_paragraphs : bytes → res (list pyval))
    (W : World) (uploaded_job : option bytes) (job_text user_input : str) :
  let backend := serve unicode_lower json_loads json_dumps py_repr decode_ignore
                   pdf_pages docx_paragraphs W in
  let post := λ req, Ok (backend req) in
  let analysis := λ resume,
    analyze_resume_and_job unicode_lower json_loads json_dumps py_repr W
      (Some resume) (Some job_text) in
  (∀ submitted b bs,
     Frontend.handle_submission post submitted (Some (b :: bs)) uploaded_job
       job_text user_input
     = Some (Some (analysis (decode_ignore (b :: bs))))) ∧
  (∀ submitted,
     Frontend.handle_submission post submitted (Some []) uploaded_job
       job_text user_input
     = Some (Some (analysis []))) ∧
  Frontend.handle_submission post true None uploaded_job job_text user_input
  = Some (Some (analysis user_input)) ∧
  Frontend.handle_submission post false None uploaded_job job_text user_input
  = None.
Proof.
  intros backend post analysis. split_and!.
  - intros submitted b bs. unfold Frontend.handle_submission.
    rewrite orb_true_r. unfold Frontend.send_to_api, post, backend.
    cbn [Frontend.request_of serve]. unfold Main.analyze_upload.
    by rewrite extract_text_from_file_plain by reflexivity.
  - intros submitted. unfold Frontend.handle_submission. by rewrite orb_true_r.
  - done.
  - done.
Qed.

(** X23. A character that the normaliser does not keep acts as a space: in
    an ASCII text, replacing it by a space does not change the normalised
    text (so "ci/cd" and "ci cd" are normalised alike). *)
Theorem normalize_text_punctuation_is_space (unicode_lower : str → N → str → str)
    (a b : str) (c : N) :
  Forall (λ c, Char.is_ascii c = true) (a ++ c :: b) →
  Char.kept (Char.lower_ascii c) = false →
  normalize_text unicode_lower (a ++ c :: b)
  = normalize_text unicode_lower (a ++ Char.SPACE :: b).
Proof. apply normalize_text_separator. Qed.

Lemma normalize_text_punctuation_is_space_witness :
  (Forall (λ c, Char.is_ascii c = true) (codes "ci" ++ 47%N :: codes "cd") ∧
   Char.kept (Char.lower_ascii 47) = false) ∧
  normalize_text ascii_lower (codes "ci" ++ 47%N :: codes "cd")
  = normalize_text ascii_lower (codes "ci" ++ Char.SPACE :: codes "cd").
Proof.
  assert (H : Forall (λ c, Char.is_ascii c = true) (codes "ci" ++ 47%N :: codes "cd"))
    by (apply (bool_decide_unpack _); vm_compute; exact I).
  split; [by split|].
  exact (normalize_text_punctuation_is_space ascii_lower (codes "ci") (codes "cd")
           47%N H eq_refl).
Defined.

(** X24. Adding text never loses a skill: every skill extracted from an
    ASCII text is extracted from any ASCII text that contains it. *)
Theorem extract_skills_grows (unicode_lower : str → N → str → str)
    (pre text post : str) (T : list str) (x : str) :
  Forall (λ c, Char.is_ascii c = true) (pre ++ text ++ post) →
  x ∈ extract_skills unicode_lower text T →
  x ∈ extract_skills unicode_lower (pre ++ text ++ post) T.
Proof.
  intros Hall.
  assert (Htext : Forall (λ c, Char.is_ascii c = true) text).
  { by apply Forall_app in Hall as [_ [? _]%Forall_app]. }
  rewrite !elem_of_extract_skills_ascii by done.
  intros [HT Hx]. split; [done|].
  eapply occurs_in_trans; [exact Hx|]. by apply normalize_text_grow.
Qed.

Lemma extract_skills_grows_witness :
  let pre := codes "Summary: " in
  let post := codes " Also Kubernetes." in
  (Forall (λ c, Char.is_ascii c = true) (pre ++ RESUME_1 ++ post) ∧
   codes "docker" ∈ extract_skills ascii_lower RESUME_1 COMMON_SKILLS) ∧
  codes "docker" ∈ extract_skills ascii_lower (pre ++ RESUME_1 ++ post) COMMON_SKILLS.
Proof.
  intros pre post.
  assert (H1 : Forall (λ c, Char.is_ascii c = true) (pre ++ RESUME_1 ++ post))
    by (apply (bool_decide_unpack _); vm_compute; exact I).
  assert (H2 : codes "docker" ∈ extract_skills ascii_lower RESUME_1 COMMON_SKILLS)
    by (apply (bool_decide_unpack _); vm_compute; exact I).
  split; [by split|].
  exact (extract_skills_grows ascii_lower pre RESUME_1 post COMMON_SKILLS _ H1 H2).
Defined.

(** X25. More resume skills never lower the score: when every skill of R
    is in R', compute_match(R, J) <= compute_match(R', J). *)
Theorem compute_match_resume_monotone (R R' J : list str) :
  (∀ x, x ∈ R → x ∈ R') →
  (compute_match R J <= compute_match R' J)%Q.
Proof.
  intros H. apply compute_match_mono. apply subseteq_size.
  intros x. rewrite !elem_of_intersection, !elem_of_list_to_set.
  intros [? ?]. split; [by apply H|done].
Qed.

Lemma compute_match_resume_monotone_witness :
  (∀ x, x ∈ [codes "python"] → x ∈ [codes "docker"; codes "python"]) ∧
  (compute_match [codes "python"] [codes "python"; codes "docker"]
   <= compute_match [codes "docker"; codes "python"] [codes "python"; codes "docker"])%Q.
Proof.
  assert (H : ∀ x : str, x ∈ [codes "python"] → x ∈ [codes "docker"; codes "python"]).
  { intros x ->%list_elem_of_singleton. right. left. }
  split; [exact H|]. exact (compute_match_resume_monotone _ _ _ H).
Defined.

(** X26. Adding text to an ASCII resume never lowers the match score of
    the analysis. *)
Theorem analyze_resume_grows (unicode_lower : str → N → str → str)
    (json_loads : str → option pyval) (json_dumps py_repr : pyval → str)
    (W : World) (pre resume post : str) (job_description : option str) :
  Forall (λ c, Char.is_ascii c = true) (pre ++ resume ++ post) →
  (match_score (value (analyze_resume_and_job unicode_lower json_loads json_dumps
                         py_repr W (Some resume) job_description))
   <= match_score (value (analyze_resume_and_job unicode_lower json_loads
                            json_dumps py_repr W (Some (pre ++ resume ++ post))
                            job_description)))%Q.
Proof.
  intros Hall.
  destruct (analyze_chain unicode_lower json_loads json_dumps py_repr W
              (Some resume) job_description) as (_ & _ & _ & _ & ->).
  destruct (analyze_chain unicode_lower json_loads json_dumps py_repr W
              (Some (pre ++ resume ++ post)) job_description) as (_ & _ & _ & _ & ->).
  cbn [default from_option id].
  apply compute_match_mono, subseteq_size.
  intros x. rewrite !elem_of_intersection, !elem_of_list_to_set.
  intros [Hx ?]. split; [|done].
  assert (Htext : Forall (λ c, Char.is_ascii c = true) resume).
  { by apply Forall_app in Hall as [_ [? _]%Forall_app]. }
  revert Hx. rewrite !elem_of_extract_skills_ascii by done.
  intros [HT Hx]. split; [done|].
  eapply occurs_in_trans; [exact Hx|]. by apply normalize_text_grow.
Qed.

Lemma analyze_resume_grows_witness :
  let post := codes " Also Kubernetes." in
  Forall (λ c, Char.is_ascii c = true) ([] ++ RESUME_1 ++ post) ∧
  (match_score (value (analyze_resume_and_job ascii_lower json_loads_sample no_repr
                         no_repr OFFLINE (Some RESUME_1) (Some JOB_1)))
   <= match_score (value (analyze_resume_and_job ascii_lower json_loads_sample
                            no_repr no_repr OFFLINE (Some ([] ++ RESUME_1 ++ post))
                            (Some JOB_1))))%Q.
Proof.
  intros post.
  assert (H : Forall (λ c, Char.is_ascii c = true) ([] ++ RESUME_1 ++ post))
    by (apply (bool_decide_unpack _); vm_compute; exact I).
  split; [exact H|].
  exact (analyze_resume_grows ascii_lower json_loads_sample no_repr no_repr OFFLINE
           [] RESUME_1 post (Some JOB_1) H).
Defined.

(** X27. Every analysis result is well formed: both skill lists hold only
    entries of the taxonomy and are strictly sorted, the score lies between
    0 and 100, and the suggestions are a non-empty list. *)
Theorem analysis_result_wellformed (unicode_lower : str → N → str → str)
    (json_loads : str → option pyval) (json_dumps py_repr : pyval → str)
    (W : World) (resume_text job_description : option str) :
  let out := value (analyze_resume_and_job unicode_lower json_loads json_dumps
                      py_repr W resume_text job_description) in
  (∀ x, x ∈ skills_resume out ∨ x ∈ skills_job out → x ∈ COMMON_SKILLS) ∧
  StronglySorted str_lt (skills_resume out) ∧
  StronglySorted str_lt (skills_job out) ∧
  ((0 <= match_score out)%Q ∧ (match_score out <= 100)%Q) ∧
  (∃ x l, suggestions out = PList (x :: l)).
Proof.
  intros out. subst out.
  pose proof (suggestions_never_empty unicode_lower json_loads json_dumps py_repr W
                resume_text job_description) as Hs.
  destruct (analyze_chain unicode_lower json_loads json_dumps py_repr W
              resume_text job_description) as (_ & _ & -> & -> & ->).
  split_and!; try done.
  - by intros x [[? _]%elem_of_extract_skills | [? _]%elem_of_extract_skills].
  - apply StronglySorted_sorted.
  - apply StronglySorted_sorted.
  - apply compute_match_bounds.
  - apply compute_match_bounds.
Qed.

(** X28. A provider whose credential is missing (or empty) returns the
    empty list at once, without any request. *)
Theorem provider_without_credential (json_loads : str → option pyval)
    (json_dumps py_repr : pyval → str) (W : World) (resume job : str) :
  (gemini_configured W = false →
   call_gemini_suggestions json_loads json_dumps py_repr W resume job
   = IO (PList []) [CallGemini]) ∧
  (openai_configured W = false →
   call_openai_suggestions json_loads W resume job
   = IO (PList []) [CallOpenAI]).
Proof.
  split.
  - unfold gemini_configured, call_gemini_suggestions.
    by destruct (Py.env_or _ _) as [[|k ey]|].
  - unfold openai_configured, call_openai_suggestions.
    by destruct (openai_imported W), (Py.env_truthy (OPENAI_API_KEY W)).
Qed.
